(** * fem-iot-workshop: stationarity verdicts, threshold grouper, plot helpers

    A shallow embedding of [src/timeseries.py], [src/utils.py] and
    [src/visualizations.py].  Python floats are IEEE-754 binary64 values,
    modelled with the Standard Library's executable specification
    [spec_float]; the caller's table, the console and the drawing surface
    are threaded through every function as an explicit state. *)

From Stdlib Require Import ZArith QArith Qpower Qabs Lqa String Ascii.
From Stdlib Require Import Floats.SpecFloat.
From stdpp Require Import base option list sorting strings.

Local Open Scope Z_scope.
Local Open Scope string_scope.

(** ** binary64 arithmetic *)

Module F64.

Definition prec : Z := 53.
Definition emax : Z := 1024.

Definition float64 : Type := spec_float.

(** Conversion of an [int64] to [float64] (round to nearest, ties to even),
    as numpy does before a true division. *)
Definition of_Z (z : Z) : float64 := binary_normalize prec emax z 0 false.

Definition div (x y : float64) : float64 := SFdiv prec emax x y.
Definition add (x y : float64) : float64 := SFadd prec emax x y.
Definition leb (x y : float64) : bool := SFleb x y.
Definition ltb (x y : float64) : bool := SFltb x y.

(** The literal [0.05]: the binary64 nearest to 1/20,
    [0x1.999999999999ap-5]. *)
Definition lit_0_05 : float64 := S754_finite false 7205759403792794 (-57).

(** The literal [1.0]. *)
Definition one : float64 := of_Z 1.

Definition nan : float64 := S754_nan.

Definition is_nan (x : float64) : bool :=
  match x with
  | S754_nan => true
  | _ => false
  end.

(** The number a finite [float64] stands for: [m * 2^e] with its sign, as
    a rational.  (Infinities and NaN stand for no number; [to_Q] gives them
    0, and the statements that use it say that the value is finite.) *)
Definition pow2 (e : Z) : Q := (2 ^ e)%Q.

Definition scaled (m e : Z) : Q := (inject_Z m * pow2 e)%Q.

Definition to_Q (x : float64) : Q :=
  match x with
  | S754_finite s m e => if s then (- scaled (Zpos m) e)%Q else scaled (Zpos m) e
  | _ => 0%Q
  end.

(** [2^-49]: the bound used below for the relative error of one
    conversion, division or addition in the normal range (the error of a
    correctly rounded operation is at most [2^-53]; the coarser bound keeps
    the argument short). *)
Definition eps : Q := 1 # 562949953421312.

End F64.

Abbreviation float64 := F64.float64.

(** ** Exceptions, state and the monad of the library's functions *)

Inductive exn : Type :=
| KeyError (key : string)
| ValueError
| TypeError
| AttributeError
| IndexError.

(** A table: named columns, in column order.  [C] is the type of a column. *)
Definition Frame (C : Type) : Type := list (string * C).

(** [df[name]]: the first column of that name. *)
Fixpoint getitem {C} (df : Frame C) (name : string) : option C :=
  match df with
  | [] => None
  | (n, c) :: rest => if decide (n = name) then Some c else getitem rest name
  end.

(** [df[name] = c]: overwrite the column in place, or append a new one. *)
Fixpoint setitem {C} (df : Frame C) (name : string) (c : C) : Frame C :=
  match df with
  | [] => [(name, c)]
  | (n, c0) :: rest =>
      if decide (n = name) then (n, c) :: rest else (n, c0) :: setitem rest name c
  end.

(** Columns of a table handed to the plotting helpers. *)
Inductive column : Type :=
| ObjCol (cells : list (option string))   (* dtype object: str, or missing *)
| FloatCol (cells : list float64)         (* dtype float64 *)
| IntCol (cells : list Z).                (* dtype int64 *)

Abbreviation matrix A := (list (list A)).

(** What reaches the drawing surface. *)
Inductive render : Type :=
| PiePlot (summary : list (string * nat)) (title x_label y_label : string)
    (font_size start_angle : Z)
| AxRemove
| ScatterMapbox (df : Frame column) (lat lon : string) (color : option string)
    (hover_name : string)
| UpdateLayout
| FigShow
| PltFigure (fig_size : Z * Z)
| Heatmap (corr : matrix float64) (mask : matrix bool) (cmap title : string)
| Suptitle (text : string)
| PlotAcf (lags : option Z)
| PlotPacf (lags : option Z).

(** The caller's table object, the console, and the drawing surface. *)
Record state (T : Type) : Type := State {
  table : T;
  stdout : list string;
  display : list render
}.
Arguments State {T}.
Arguments table {T}.
Arguments stdout {T}.
Arguments display {T}.

Definition M (T A : Type) : Type := state T → state T * (exn + A).

Definition ret {T A} (a : A) : M T A := λ s, (s, inr a).
Definition bind {T A B} (m : M T A) (k : A → M T B) : M T B :=
  λ s, match m s with
       | (s', inl e) => (s', inl e)
       | (s', inr a) => k a s'
       end.
Definition raise {T A} (e : exn) : M T A := λ s, (s, inl e).

Declare Scope py_scope.
Delimit Scope py_scope with py.
Notation "x <- m ;; k" := (bind m (λ x, k))
  (at level 100, m at next level, right associativity) : py_scope.
Notation "m ;; k" := (bind m (λ _, k))
  (at level 100, right associativity) : py_scope.
Local Open Scope py_scope.

(** [try: m  except KeyError: h] *)
Definition except_KeyError {T A} (m h : M T A) : M T A :=
  λ s, match m s with
       | (s', inl (KeyError _)) => h s'
       | r => r
       end.

Definition get_table {T} : M T T := λ s, (s, inr (table s)).
Definition put_table {T} (t : T) : M T unit :=
  λ s, (State t (stdout s) (display s), inr ()).
Definition print {T} (line : string) : M T unit :=
  λ s, (State (table s) (stdout s ++ [line]) (display s), inr ()).
Definition draw {T} (r : render) : M T unit :=
  λ s, (State (table s) (stdout s) (display s ++ [r]), inr ()).
Definition lift {T A} (r : exn + A) : M T A := λ s, (s, r).

(** [df[name]] on the caller's table; a missing column is a [KeyError]. *)
Definition df_getitem {C} (name : string) : M (Frame C) C :=
  df <- get_table ;;
  match getitem df name with
  | Some c => ret c
  | None => raise (KeyError name)
  end.

(** [df[name] = c] on the caller's table. *)
Definition df_setitem {C} (name : string) (c : C) : M (Frame C) unit :=
  df <- get_table ;;
  put_table (setitem df name c).

(** Statement-by-statement iteration, [for x in xs: body x]. *)
Fixpoint for_each {T A} (xs : list A) (body : A → M T unit) : M T unit :=
  match xs with
  | [] => ret ()
  | x :: rest => body x ;; for_each rest body
  end.

(** ** [src/timeseries.py] *)

(** A numeric table: every column is a [float64] column. *)
Abbreviation NumFrame := (Frame (list float64)).

(** [timeseries.values]: the table as a row-major two-dimensional array. *)
Definition values (df : NumFrame) : matrix float64 :=
  match df with
  | [] => []
  | (_, c) :: _ =>
      map (λ i, omap (λ col : string * list float64, snd col !! i) df)
          (seq 0 (length c))
  end.

(** The tuple [statsmodels.tsa.stattools.adfuller] returns. *)
Record adf_result : Type := AdfResult {
  adf_stat : float64;                       (* result[0] *)
  adf_pvalue : float64;                     (* result[1] *)
  adf_usedlag : Z;                          (* result[2] *)
  adf_nobs : Z;                             (* result[3] *)
  adf_critical_values : list (string * float64)   (* result[4] *)
}.

(** The tuple [statsmodels.tsa.stattools.kpss] returns. *)
Record kpss_result : Type := KpssResult {
  kpss_stat : float64;                      (* kpss_test[0] *)
  kpss_pvalue : float64;                    (* kpss_test[1] *)
  kpss_lags : Z;                            (* kpss_test[2] *)
  kpss_critical_values : list (string * float64)  (* kpss_test[3] *)
}.

(** A [pd.Series] of floats with string labels. *)
Definition Series : Type := list (string * float64).

(** [series[label] = value]: overwrite the entry with that label, or
    enlarge the series by one entry. *)
Fixpoint series_setitem (s : Series) (label : string) (value : float64) : Series :=
  match s with
  | [] => [(label, value)]
  | (l, v) :: rest =>
      if decide (l = label) then (l, value) :: rest
      else (l, v) :: series_setitem rest label value
  end.

(** [series[i]] with an integer [i] on a string-labelled series: pandas
    falls back to the position. *)
Definition series_getitem_int {T} (s : Series) (i : nat) : M T float64 :=
  match s !! i with
  | Some (_, v) => ret v
  | None => raise IndexError
  end.

Definition newline : string := String (ascii_of_nat 10) EmptyString.

Section Timeseries.

(** External collaborators: the two statistical routines, and the text
    Python produces for a float and pandas for a series. *)
Variable adfuller : matrix float64 → string → exn + adf_result.
Variable kpss : NumFrame → string → string → exn + kpss_result.
Variable repr_float : float64 → string.
Variable repr_series : Series → string.

Definition run_adfuller_test (auto_lag : string) : M NumFrame bool :=
  print "Results of Augmented Dickey-Fuller Test:" ;;
  print "Null Hypothesis: Unit Root Present (NON-STATIONARY)" ;;
  print "Test Statistic < Critical Value => Reject Null" ;;
  print ("P-Value =< Alpha(.05) => Reject Null" ++ newline) ;;
  timeseries <- get_table ;;
  result <- lift (adfuller (values timeseries) auto_lag) ;;
  print ("ADF Statistic: " ++ repr_float (adf_stat result)) ;;
  let p_value := adf_pvalue result in
  print ("p-value: " ++ repr_float p_value) ;;
  for_each (adf_critical_values result) (λ kv,
    print "Critial Values:" ;;
    print ("   " ++ fst kv ++ ", " ++ repr_float (snd kv))) ;;
  if F64.leb p_value F64.lit_0_05 then
    print "Reject the null hypothesis (H0). The data is STATIONARY." ;;
    let pass_test := true in
    ret pass_test
  else
    print "Fail to reject the null hypothesis (H0). The data is NON-STATIONARY." ;;
    let pass_test := false in
    ret pass_test.

Definition run_kpss_test (regression : string) : M NumFrame bool :=
  print "Results of KPSS Test:" ;;
  print "Null Hypothesis: Data is Stationary/Trend Stationary (STATIONARY)" ;;
  print "Test Statistic > Critical Value => Reject Null" ;;
  print ("P-Value =< Alpha(.05) => Reject Null" ++ newline) ;;
  timeseries <- get_table ;;
  kpss_test <- lift (kpss timeseries regression "auto") ;;
  let kpss_output : Series :=
    [("Test Statistic", kpss_stat kpss_test);
     ("p-value", kpss_pvalue kpss_test);
     ("Lags Used", F64.of_Z (kpss_lags kpss_test))] in
  let kpss_output :=
    fold_left (λ out kv, series_setitem out ("Critical Value " ++ fst kv) (snd kv))
              (kpss_critical_values kpss_test) kpss_output in
  print (repr_series kpss_output) ;;
  p_value <- series_getitem_int kpss_output 1 ;;
  if F64.leb p_value F64.lit_0_05 then
    print "Reject the null hypothesis (H0). The data is NON-STATIONARY." ;;
    let pass_test := false in
    ret pass_test
  else
    print "Fail to reject the null hypothesis (H0). The data is STATIONARY." ;;
    let pass_test := true in
    ret pass_test.

End Timeseries.

(** ** [create_pie_chart_with_grouped_threshold]
    ([src/utils.py], and the identical copy in [src/visualizations.py]) *)

(** The table the grouper receives: columns of category strings, a cell
    being [None] where the value is missing (NaN). *)
Abbreviation CatFrame := (Frame (list (option string))).

(** Python's order on [str], which pandas uses to sort group keys. *)
Definition str_le (a b : string) : Prop := String.leb a b = true.

Global Instance str_le_dec : RelDecision str_le.
Proof. intros a b. unfold str_le. apply _. Defined.

Definition count_le (a b : string * nat) : Prop := (a.2 ≤ b.2)%nat.

Global Instance count_le_dec : RelDecision count_le.
Proof. intros a b. unfold count_le. apply _. Defined.

(** [input_df.groupby(column_name).size().to_frame().reset_index()
    .rename(columns={0: 'sizes'})]: one row per distinct category, keys in
    sorted order, rows with a missing category dropped. *)
Definition groupby_size (cells : list (option string)) : list (string * nat) :=
  let present := omap id cells in
  (λ k, (k, length (filter (λ x, x = k) present)))
    <$> merge_sort str_le (remove_dups present).

(** The quantities the statements about the grouper speak of, read off the
    category column itself: the distinct categories, the number of rows
    whose category is present, the number of rows of one category, the
    fraction the function compares with [threshold], the label a category
    ends up with, and the number of rows that end up under a label. *)
Definition categories (cells : list (option string)) : list string :=
  merge_sort str_le (remove_dups (omap id cells)).

Definition n_present (cells : list (option string)) : nat :=
  length (omap id cells).

Definition n_category (cells : list (option string)) (k : string) : nat :=
  length (filter (λ c, c = Some k) cells).

Definition fraction (cells : list (option string)) (k : string) : float64 :=
  F64.div (F64.of_Z (Z.of_nat (n_category cells k)))
          (F64.of_Z (Z.of_nat (n_present cells))).

Definition final_label (threshold : float64) (grouped_label : string)
    (cells : list (option string)) (k : string) : string :=
  if F64.ltb (fraction cells k) threshold then grouped_label else k.

Definition n_final (threshold : float64) (grouped_label : string)
    (cells : list (option string)) (l : string) : nat :=
  length (filter (λ c, final_label threshold grouped_label cells <$> c = Some l)
                 cells).

(** The labels of the groups that are plotted, before sorting by count. *)
Definition final_labels (threshold : float64) (grouped_label : string)
    (cells : list (option string)) : list string :=
  merge_sort str_le
    (remove_dups (final_label threshold grouped_label cells <$> categories cells)).

(** The fraction of an output group, and the exact sum of the fractions of
    a series of groups, as rationals. *)
Definition exact_fraction (total : nat) (n : nat) : Q :=
  inject_Z (Z.of_nat n) / inject_Z (Z.of_nat total).

Definition sum_exact_fractions (total : nat) (s : list (string * nat)) : Q :=
  foldr (λ g acc, exact_fraction total g.2 + acc)%Q 0%Q s.

(** The [float64] fractions of a series of groups, computed as line 35
    computes [perc]: the count, converted, divided by the total, converted. *)
Definition float_fractions (total : nat) (s : list (string * nat))
    : list float64 :=
  (λ g : string * nat,
     F64.div (F64.of_Z (Z.of_nat g.2)) (F64.of_Z (Z.of_nat total))) <$> s.

(** The exact sum of a list of rationals, and the [float64] sum of a list
    of floats, added from left to right starting from [0.0]. *)
Definition sum_Q (qs : list Q) : Q := foldr Qplus 0%Q qs.

Definition float_sum (xs : list float64) : float64 :=
  fold_left F64.add xs (S754_zero false).

(** A positive finite number that is at least [2^-64]. *)
Definition summand (x : float64) : Prop :=
  ∃ m e, x = S754_finite false m e
         ∧ ((1 # 18446744073709551616) <= F64.scaled (Zpos m) e)%Q.

(** A row of [grouped_df] once [perc] and [label_cleaned] are filled in. *)
Record grouped_row : Type := GroupedRow {
  category : string;
  sizes : nat;
  perc : float64;
  label_cleaned : string
}.

(** Lines 35-41: [perc], the comparison with [threshold], the [.loc]
    assignment of [grouped_label] and the [fillna] with the category. *)
Definition label_rows (threshold : float64) (grouped_label : string)
    (grouped_df : list (string * nat)) : list grouped_row :=
  let total := sum_list (snd <$> grouped_df) in
  (λ r : string * nat,
     let perc := F64.div (F64.of_Z (Z.of_nat r.2)) (F64.of_Z (Z.of_nat total)) in
     let cond_lt_threshold := F64.ltb perc threshold in
     let label_cleaned := if cond_lt_threshold then Some grouped_label else None in
     let label_cleaned := default r.1 label_cleaned in
     GroupedRow r.1 r.2 perc label_cleaned) <$> grouped_df.

(** [.groupby('label_cleaned').sizes.sum()] *)
Definition groupby_sum (rows : list grouped_row) : list (string * nat) :=
  (λ l, (l, sum_list_with sizes (filter (λ r, label_cleaned r = l) rows)))
    <$> merge_sort str_le (remove_dups (label_cleaned <$> rows)).

(** [.sort_values()]: ascending by count.  Groups of equal count keep the
    order they had, as numpy's default sort leaves them on a short series
    (it sorts runs of up to sixteen entries by insertion); no statement
    below depends on the order among equal counts. *)
Fixpoint insert_by_count (g : string * nat) (s : list (string * nat))
    : list (string * nat) :=
  match s with
  | [] => [g]
  | h :: rest =>
      if decide (count_le g h) then g :: h :: rest
      else h :: insert_by_count g rest
  end.

Definition sort_values (s : list (string * nat)) : list (string * nat) :=
  foldr insert_by_count [] s.

(** The series handed to [.plot(kind='pie', ...)]. *)
Definition pie_series (threshold : float64) (grouped_label : string)
    (grouped_df : list (string * nat)) : list (string * nat) :=
  sort_values (groupby_sum (label_rows threshold grouped_label grouped_df)).

(** The function.  The working columns [sizes] and [perc] share the frame
    [grouped_df] with the category column.  When [column_name] is
    ["sizes"], the frame has two columns of that name, [grouped_df.sizes]
    is both of them and the division of line 35 meets the category strings:
    a [TypeError].  When [column_name] is ["perc"], line 35 overwrites the
    categories with the fractions and the groups are labelled by numbers;
    the series below, whose labels are strings, describes the call for every
    other [column_name]. *)
Definition create_pie_chart_with_grouped_threshold
    (column_name title : string) (threshold : float64) (grouped_label : string)
    (x_label y_label : string) (font_size start_angle : Z) : M CatFrame unit :=
  cells <- df_getitem column_name ;;
  let grouped_df := groupby_size cells in
  if bool_decide (grouped_df ≠ []) then
    if bool_decide (column_name = "sizes") then raise TypeError
    else
      draw (PiePlot (pie_series threshold grouped_label grouped_df)
                    title x_label y_label font_size start_angle)
  else
    draw AxRemove.

(** ** [src/visualizations.py] *)

(** [s.split(sep)] for a one-character separator. *)
Fixpoint split_on (sep : ascii) (s : string) : list string :=
  match s with
  | EmptyString => [EmptyString]
  | String c rest =>
      if decide (c = sep) then EmptyString :: split_on sep rest
      else match split_on sep rest with
           | [] => [String c EmptyString]
           | hd :: tl => String c hd :: tl
           end
  end.

(** The [.str] accessor exists on object columns only. *)
Definition str_accessor (c : column) : exn + list (option string) :=
  match c with
  | ObjCol cells => inr cells
  | _ => inl AttributeError
  end.

(** [.str.split(sep).str[i]]: the [i]-th piece, missing when the cell is
    missing or has fewer pieces. *)
Definition str_split_get (sep : ascii) (i : nat) (cells : list (option string))
    : list (option string) :=
  (λ cell : option string, cell ≫= (λ s, split_on sep s !! i)) <$> cells.

(** [series + s] for a Python string [s]. *)
Definition add_str (c : column) (s : string) : exn + list (option string) :=
  match c with
  | ObjCol cells => inr ((λ cell : option string, (λ x, x ++ s) <$> cell) <$> cells)
  | _ => inl TypeError
  end.

(** [series + other] for an object series on the left: cell by cell, missing
    where either side is missing; a string meeting a number is a
    [TypeError]. *)
Definition add_col (xs : list (option string)) (c : column)
    : exn + list (option string) :=
  match c with
  | ObjCol ys =>
      inr (zip_with (λ x y : option string, x ≫= (λ a, (λ b, a ++ b) <$> y)) xs ys)
  | FloatCol ys =>
      if existsb (λ xy : option string * float64,
                    bool_decide (is_Some xy.1) && negb (F64.is_nan xy.2))
                 (zip xs ys)
      then inl TypeError
      else inr ((λ _, None) <$> zip xs ys)
  | IntCol ys =>
      if existsb (λ xy : option string * Z, bool_decide (is_Some xy.1)) (zip xs ys)
      then inl TypeError
      else inr ((λ _, None) <$> zip xs ys)
  end.

(** [np.ones_like(a, dtype=np.bool)] *)
Definition ones_like_bool {A} (a : matrix A) : matrix bool :=
  (λ row : list A, (λ _, true) <$> row) <$> a.

(** [np.triu(m)]: entries below the main diagonal replaced by the zero of
    the element type. *)
Definition triu {A} (zero : A) (m : matrix A) : matrix A :=
  imap (λ i (row : list A), imap (λ j x, if decide (i ≤ j)%nat then x else zero) row) m.

Section Visualizations.

(** External collaborators: Python's [float(s)] ([None] where it raises
    [ValueError]) and pandas' [DataFrame.corr]. *)
Variable float_of_string : string → option float64.
Variable corr : Frame column → string → exn + matrix float64.

(** [.astype('float')] on an object series: missing cells become NaN, the
    others go through [float]. *)
Fixpoint astype_float (cells : list (option string)) : exn + list float64 :=
  match cells with
  | [] => inr []
  | cell :: rest =>
      match match cell with
            | None => Some F64.nan
            | Some s => float_of_string s
            end with
      | None => inl ValueError
      | Some x =>
          match astype_float rest with
          | inl e => inl e
          | inr xs => inr (x :: xs)
          end
      end
  end.

(** [df[coordinates_column].str.split(',').str[i].astype('float')] *)
Definition coordinate (coordinates_column : string) (i : nat)
    : M (Frame column) (list float64) :=
  c <- df_getitem coordinates_column ;;
  cells <- lift (str_accessor c) ;;
  lift (astype_float (str_split_get "," i cells)).

(** Lines 79-82: [df['id']], falling back to [df['measuring_point_id']]
    on [KeyError]. *)
Definition measuring_point_ids : M (Frame column) column :=
  except_KeyError (df_getitem "id") (df_getitem "measuring_point_id").

(** [px.scatter_mapbox]: a column argument that names no column of the
    table is a [ValueError]. *)
Definition scatter_mapbox (lat lon : string) (color : option string)
    (hover_name : string) : M (Frame column) unit :=
  df <- get_table ;;
  if bool_decide (Forall (λ name, is_Some (getitem df name))
                         ([lat; lon; hover_name] ++ option_list color))
  then draw (ScatterMapbox df lat lon color hover_name)
  else raise ValueError.

Definition plot_measuring_points (coordinates_column : string)
    (color_column : option string) : M (Frame column) unit :=
  lat <- coordinate coordinates_column 0 ;;
  df_setitem "lat" (FloatCol lat) ;;
  lon <- coordinate coordinates_column 1 ;;
  df_setitem "lon" (FloatCol lon) ;;
  ids <- measuring_point_ids ;;
  left <- lift (add_str ids " : ") ;;
  description <- df_getitem "description" ;;
  text <- lift (add_col left description) ;;
  df_setitem "text" (ObjCol text) ;;
  scatter_mapbox "lat" "lon" color_column "text" ;;
  draw UpdateLayout ;;
  draw FigShow.

Definition plot_correlation_heat_map (title color_map : string)
    (fig_size : Z * Z) (correlation_method : string) : M (Frame column) unit :=
  draw (PltFigure fig_size) ;;
  input_df <- get_table ;;
  shape <- lift (corr input_df "pearson") ;;
  let mask := triu false (ones_like_bool shape) in
  c <- lift (corr input_df correlation_method) ;;
  draw (Heatmap c mask color_map title).

End Visualizations.

Section AcfPacf.

(** External collaborators: statsmodels' [plot_acf] and [plot_pacf], which
    compute the correlations of the series they are given before they draw,
    and raise when they cannot (too few observations for the lags asked
    for, say).  The last argument of [plot_pacf] is its [method]. *)
Variable plot_acf : NumFrame → option Z → exn + unit.
Variable plot_pacf : NumFrame → option Z → string → exn + unit.

Definition plot_acf_pacf (lags : option Z) (fig_size : Z * Z)
    : M NumFrame unit :=
  draw (PltFigure fig_size) ;;
  draw (Suptitle "ACF and PACF") ;;
  timeseries <- get_table ;;
  lift (plot_acf timeseries lags) ;;
  draw (PlotAcf lags) ;;
  lift (plot_pacf timeseries lags "ywm") ;;
  draw (PlotPacf lags).

End AcfPacf.

(** ** A stand-in for [float] on plain decimal literals

    [decimal_literal] reads [digits] and [digits.digits] where the digits
    form an integer below 2^53 and at most 22 digits follow the point: there
    both the integer and the power of ten are exact in binary64, and one
    correctly rounded division gives the value [float] gives.  It is used
    only to run the functions on concrete tables. *)

Definition digit (c : ascii) : option Z :=
  let n := Z.of_N (N_of_ascii c) in
  if ((48 <=? n) && (n <=? 57))%Z then Some (n - 48) else None.

Fixpoint digits (acc : Z) (s : string) : option Z :=
  match s with
  | EmptyString => Some acc
  | String c rest => digit c ≫= (λ d, digits (10 * acc + d) rest)
  end.

Definition decimal_literal (s : string) : option float64 :=
  match split_on "." s with
  | [i] =>
      if bool_decide (i = EmptyString) then None
      else digits 0 i ≫= (λ m,
             if (m <? 2 ^ 53)%Z then Some (F64.of_Z m) else None)
  | [i; f] =>
      if bool_decide (i ++ f = EmptyString) then None
      else digits 0 (i ++ f) ≫= (λ m,
             let k := Z.of_nat (String.length f) in
             if ((m <? 2 ^ 53) && (k <=? 22))%Z
             then Some (F64.div (F64.of_Z m) (F64.of_Z (10 ^ k)))
             else None)
  | _ => None
  end.

(** ** Predicates used in the statements *)

(** A computation that only writes to the console: it returns normally and
    leaves the caller's table and the drawing surface alone. *)
Definition console_only {T A} (m : M T A) : Prop :=
  ∀ s, ∃ a, snd (m s) = inr a ∧ table (fst (m s)) = table s
            ∧ display (fst (m s)) = display s.

(** The entry labelled ["p-value"] is the second of the series. *)
Definition p_value_second (s : Series) (p : float64) : Prop :=
  ∃ first rest, s = first :: ("p-value", p) :: rest.

(** ** Concrete inputs *)

(** Concrete collaborators used to run the verdict functions: a routine
    that answers with a fixed result, and formatters whose text is not
    inspected. *)
Definition answer_adf (r : adf_result) : matrix float64 → string → exn + adf_result :=
  λ _ _, inr r.
Definition answer_kpss (r : kpss_result) : NumFrame → string → string → exn + kpss_result :=
  λ _ _ _, inr r.
Definition no_text {A} : A → string := λ _, EmptyString.

Definition critical_values_a : list (string * float64) :=
  [("1%", F64.of_Z (-3)); ("5%", F64.of_Z (-2)); ("10%", F64.of_Z (-1))].
Definition critical_values_b : list (string * float64) :=
  [("10%", F64.of_Z 7); ("p-value", F64.of_Z 9)].

Definition adf_boundary : adf_result :=
  AdfResult (F64.of_Z (-4)) F64.lit_0_05 2 97 critical_values_a.
Definition adf_boundary' : adf_result :=
  AdfResult (F64.of_Z 5) F64.lit_0_05 0 10 critical_values_b.
Definition kpss_boundary : kpss_result :=
  KpssResult (F64.of_Z 1) F64.lit_0_05 4 critical_values_a.
Definition kpss_boundary' : kpss_result :=
  KpssResult (F64.of_Z (-8)) F64.lit_0_05 0 critical_values_b.

Definition one_series : state NumFrame :=
  State [("y", [F64.of_Z 1; F64.of_Z 2; F64.of_Z 3])] [] [].

(** The fraction "of the total row count": the rows of one category over
    all rows of the table, missing categories included. *)
Definition fraction_of_rows (cells : list (option string)) (k : string) : float64 :=
  F64.div (F64.of_Z (Z.of_nat (n_category cells k)))
          (F64.of_Z (Z.of_nat (length cells))).


(** The literal [0.5]. *)
Definition lit_0_5 : float64 := F64.div (F64.of_Z 1) (F64.of_Z 2).

(** The scenario of the specification: 100 rows, A:50, B:45, C:3, D:2. *)
Definition scenario_cells : list (option string) :=
  replicate 50 (Some "A") ++ replicate 45 (Some "B")
  ++ replicate 3 (Some "C") ++ replicate 2 (Some "D").

Definition scenario : state CatFrame :=
  State [("category", scenario_cells)] [] [].

(** Tables with missing categories. *)
Definition one_of_three : state CatFrame :=
  State [("category", [Some "A"; None; None])] [] [].

Definition one_of_two : state CatFrame :=
  State [("category", [Some "A"; None])] [] [].

Definition all_missing : state CatFrame :=
  State [("category", [None; None])] [] [].


(** [keeps R m]: running [m] takes the caller's table to a table related to
    it by [R], whether [m] returns or raises. *)
Definition keeps {T A} (R : T → T → Prop) (m : M T A) : Prop :=
  ∀ s, R (table s) (table (fst (m s))).

(** Two tables agree on every column whose name is not in [names]. *)
Definition same_outside {C} (names : list string) (df df' : Frame C) : Prop :=
  ∀ n, n ∉ names → getitem df' n = getitem df n.

(** A table for the map: one measuring point. *)
Definition one_point : state (Frame column) :=
  State [("coordinates", ObjCol [Some "41.4,2.07"]);
         ("id", ObjCol [Some "p1"]);
         ("description", ObjCol [Some "gate"])] [] [].

(** The same point identified by [measuring_point_id] only. *)
Definition one_point_fallback : state (Frame column) :=
  State [("coordinates", ObjCol [Some "41.4,2.07"]);
         ("measuring_point_id", ObjCol [Some "p1"]);
         ("description", ObjCol [Some "gate"])] [] [].

(** The same point with no identifier column at all. *)
Definition one_point_anonymous : state (Frame column) :=
  State [("coordinates", ObjCol [Some "41.4,2.07"]);
         ("description", ObjCol [Some "gate"])] [] [].

(** A correlation routine that answers with a fixed matrix. *)
Definition answer_corr (m : matrix float64) : Frame column → string → exn + matrix float64 :=
  λ _ _, inr m.

(** The coordinates column is a column of strings, not the column [lat]
    itself, and [float] accepts the first and the second piece of every
    cell: [lat] and [lon] are the two columns the function derives. *)
Definition coordinates_ok (fos : string → option float64) (df : Frame column)
    (coordinates_column : string) (lat lon : list float64) : Prop :=
  coordinates_column ≠ "lat" ∧
  ∃ cells, getitem df coordinates_column = Some (ObjCol cells)
           ∧ astype_float fos (str_split_get "," 0 cells) = inr lat
           ∧ astype_float fos (str_split_get "," 1 cells) = inr lon.

(** A 2-by-2 correlation matrix. *)
Definition corr_2x2 : matrix float64 :=
  [[F64.one; lit_0_5]; [lit_0_5; F64.one]].

Definition two_columns : state (Frame column) :=
  State [("x", FloatCol [F64.of_Z 1; F64.of_Z 2; F64.of_Z 4]);
         ("y", FloatCol [F64.of_Z 1; F64.of_Z 3; F64.of_Z 4])] [] [].

(** The entry of a matrix at row [i], column [j]. *)
Definition entry {A} (m : matrix A) (i j : nat) : option A :=
  m !! i ≫= (λ row : list A, row !! j).

(** ** The console reports *)

Definition adf_preamble : list string :=
  ["Results of Augmented Dickey-Fuller Test:";
   "Null Hypothesis: Unit Root Present (NON-STATIONARY)";
   "Test Statistic < Critical Value => Reject Null";
   "P-Value =< Alpha(.05) => Reject Null" ++ newline].

(** The lines a complete run of [run_adfuller_test] writes. *)
Definition adf_report (repr_float : float64 → string) (r : adf_result)
    : list string :=
  (adf_preamble
   ++ ["ADF Statistic: " +:+ repr_float (adf_stat r);
       "p-value: " +:+ repr_float (adf_pvalue r)]
   ++ concat ((λ kv : string * float64,
                 ["Critial Values:";
                  "   " +:+ fst kv +:+ ", " +:+ repr_float (snd kv)])
              <$> adf_critical_values r)
   ++ [if F64.leb (adf_pvalue r) F64.lit_0_05
       then "Reject the null hypothesis (H0). The data is STATIONARY."
       else "Fail to reject the null hypothesis (H0). The data is NON-STATIONARY."])%list.

Definition kpss_preamble : list string :=
  ["Results of KPSS Test:";
   "Null Hypothesis: Data is Stationary/Trend Stationary (STATIONARY)";
   "Test Statistic > Critical Value => Reject Null";
   "P-Value =< Alpha(.05) => Reject Null" ++ newline].

(** The series [run_kpss_test] prints when the critical values have
    distinct keys. *)
Definition kpss_series (r : kpss_result) : Series :=
  ([("Test Statistic", kpss_stat r);
    ("p-value", kpss_pvalue r);
    ("Lags Used", F64.of_Z (kpss_lags r))]
   ++ ((λ kv : string * float64, ("Critical Value " +:+ fst kv, snd kv))
       <$> kpss_critical_values r))%list.

(** A routine that raises. *)
Definition failing_adf (e : exn) : matrix float64 → string → exn + adf_result :=
  λ _ _, inl e.
Definition failing_kpss (e : exn) : NumFrame → string → string → exn + kpss_result :=
  λ _ _ _, inl e.

(** ** More tables for the grouper *)

(** A table without the category column. *)
Definition no_category_column : state CatFrame :=
  State [("other", [Some "x"; Some "y"])] [] [].

(** The rows of [scenario] in the opposite order. *)
Definition scenario_reversed : state CatFrame :=
  State [("category", reverse scenario_cells)] [] [].

(** A binary64 value whose sign bit is clear, or NaN. *)
Definition not_negative (x : float64) : Prop :=
  match x with
  | S754_nan => True
  | S754_zero s | S754_infinity s | S754_finite s _ _ => s = false
  end.


(** ** More tables for the map *)



(** A table without the coordinates column. *)
Definition no_coordinates : state (Frame column) :=
  State [("id", ObjCol [Some "p1"]); ("description", ObjCol [Some "gate"])] [] [].

(** A point whose longitude is not a number. *)
Definition bad_longitude : state (Frame column) :=
  State [("coordinates", ObjCol [Some "41.4,east"]);
         ("id", ObjCol [Some "p1"]);
         ("description", ObjCol [Some "gate"])] [] [].

(** A point whose latitude is not a number. *)
Definition bad_latitude : state (Frame column) :=
  State [("coordinates", ObjCol [Some "north,2.07"]);
         ("id", ObjCol [Some "p1"]);
         ("description", ObjCol [Some "gate"])] [] [].

(** A point with neither identifier column whose latitude is not a
    number. *)
Definition bad_latitude_anonymous : state (Frame column) :=
  State [("coordinates", ObjCol [Some "north,2.07"]);
         ("description", ObjCol [Some "gate"])] [] [].

(** A point with both identifier columns. *)
Definition one_point_both : state (Frame column) :=
  State [("coordinates", ObjCol [Some "41.4,2.07"]);
         ("measuring_point_id", ObjCol [Some "m7"]);
         ("id", ObjCol [Some "p1"]);
         ("description", ObjCol [Some "gate"])] [] [].




(** A correlation routine that raises. *)
Definition failing_corr (e : exn) : Frame column → string → exn + matrix float64 :=
  λ _ _, inl e.

(** A correlation routine that knows the default method only. *)
Definition pearson_only (m : matrix float64) : Frame column → string → exn + matrix float64 :=
  λ _ method, if bool_decide (method = "pearson") then inr m else inl ValueError.

(** Another 2-by-2 correlation matrix. *)
Definition corr_2x2' : matrix float64 :=
  [[F64.one; F64.of_Z 0]; [F64.of_Z 0; F64.one]].

(** A table with a category that bears the catch-all name itself. *)
Definition with_others : state CatFrame :=
  State [("category",
          (replicate 6 (Some "Others") ++ replicate 33 (Some "A")
           ++ [Some "B"])%list)] [] [].








(** * Properties *)

(** ** Comparison of binary64 values *)

Example lit_0_05_is_nearest : F64.div (F64.of_Z 1) (F64.of_Z 20) = F64.lit_0_05.
Proof. vm_compute. reflexivity. Qed.

Example lit_0_05_valid : valid_binary F64.prec F64.emax F64.lit_0_05 = true.
Proof. vm_compute. reflexivity. Qed.

Lemma SFcompare_antisym (x y : float64) :
  SFcompare y x = option_map CompOpp (SFcompare x y).
Proof.
  destruct x as [sx|sx| |sx mx ex], y as [sy|sy| |sy my ey]; simpl;
    try reflexivity;
    try (destruct sx; reflexivity); try (destruct sy; reflexivity);
    try (destruct sx, sy; reflexivity).
  destruct sx, sy; simpl; try reflexivity;
    rewrite (Z.compare_antisym ex ey); destruct (ex ?= ey)%Z; simpl;
    try reflexivity; f_equal.
  - rewrite (Pos.compare_cont_antisym mx my Eq). reflexivity.
  - rewrite (Pos.compare_cont_antisym mx my Eq). reflexivity.
Qed.

Lemma ltb_not_leb (x y : float64) : F64.ltb x y = true → F64.leb y x = false.
Proof.
  unfold F64.ltb, F64.leb, SFltb, SFleb. rewrite (SFcompare_antisym x y).
  destruct (SFcompare x y) as [[]|]; simpl; congruence.
Qed.

Lemma leb_lit_0_05_refl : F64.leb F64.lit_0_05 F64.lit_0_05 = true.
Proof. reflexivity. Qed.

(** ** Running the monad *)

Lemma console_only_print {T} (line : string) : console_only (@print T line).
Proof. intros s. exists (). simpl. auto. Qed.

Lemma console_only_ret {T A} (a : A) : console_only (@ret T A a).
Proof. intros s. exists a. simpl. auto. Qed.

Lemma console_only_bind {T A B} (m : M T A) (k : A → M T B) :
  console_only m → (∀ a, console_only (k a)) → console_only (bind m k).
Proof.
  intros Hm Hk s. unfold bind.
  destruct (Hm s) as (a & Ha & Ht & Hd). destruct (m s) as [s' r].
  simpl in *. subst r. destruct (Hk a s') as (b & Hb & Ht' & Hd').
  exists b. rewrite Hb, Ht', Hd'. auto.
Qed.

Lemma console_only_for_each {T A} (xs : list A) (body : A → M T unit) :
  (∀ x, console_only (body x)) → console_only (for_each xs body).
Proof.
  intros Hbody. induction xs as [|x xs IH]; simpl.
  - apply console_only_ret.
  - apply console_only_bind; auto.
Qed.

Create HintDb console discriminated.
#[export] Hint Resolve console_only_print console_only_ret console_only_bind
  console_only_for_each : console.

(** Running [m] then [k] when [m] is known to return [a]. *)
Lemma bind_inr {T A B} (m : M T A) (k : A → M T B) s s' a :
  m s = (s', inr a) → bind m k s = k a s'.
Proof. intros H. unfold bind. rewrite H. reflexivity. Qed.

Lemma bind_inl {T A B} (m : M T A) (k : A → M T B) s s' e :
  m s = (s', inl e) → bind m k s = (s', inl e).
Proof. intros H. unfold bind. rewrite H. reflexivity. Qed.

(** A console-only prefix changes neither the result nor the table of
    what follows, as long as what follows ignores the console. *)
Lemma bind_console_only {T A B} (m : M T A) (k : A → M T B) s :
  console_only m →
  ∃ a s', m s = (s', inr a) ∧ table s' = table s ∧ display s' = display s
          ∧ bind m k s = k a s'.
Proof.
  intros Hm. destruct (Hm s) as (a & Ha & Ht & Hd).
  destruct (m s) as [s' r] eqn:E. simpl in *. subst r.
  exists a, s'. repeat split; auto. unfold bind. rewrite E. reflexivity.
Qed.

(** ** The stationarity verdicts *)

Ltac run_prefix :=
  cbn [bind print get_table put_table draw lift ret raise table stdout display].

Ltac skip_console :=
  match goal with
  | |- context [bind ?m ?k ?s] =>
      let a := fresh "a" in
      let s' := fresh "s" in
      let Ht := fresh "Ht" in
      let Hd := fresh "Hd" in
      let E := fresh "E" in
      destruct (bind_console_only m k s) as (a & s' & _ & Ht & Hd & E);
      [auto 10 with console | rewrite E; clear E]
  end.

(** What [run_adfuller_test] does once [adfuller] has answered. *)
Lemma run_adfuller_test_returns adfuller repr_float (st : state NumFrame)
    auto_lag result :
  adfuller (values (table st)) auto_lag = inr result →
  ∃ st', run_adfuller_test adfuller repr_float auto_lag st
         = (st', inr (F64.leb (adf_pvalue result) F64.lit_0_05))
         ∧ table st' = table st ∧ display st' = display st.
Proof.
  intros H. unfold run_adfuller_test. run_prefix. rewrite H. run_prefix.
  skip_console. simpl in Ht, Hd.
  destruct (F64.leb (adf_pvalue result) F64.lit_0_05); run_prefix;
    eexists; (split; [reflexivity|]); simpl; auto.
Qed.

(** An error of [adfuller] propagates unchanged. *)
Lemma run_adfuller_test_raises adfuller repr_float (st : state NumFrame)
    auto_lag e :
  adfuller (values (table st)) auto_lag = inl e →
  ∃ st', run_adfuller_test adfuller repr_float auto_lag st = (st', inl e)
         ∧ table st' = table st ∧ display st' = display st.
Proof.
  intros H. unfold run_adfuller_test. run_prefix. rewrite H. run_prefix.
  eexists. split; [reflexivity|]. simpl. auto.
Qed.

(** Assigning a critical value never touches the entry labelled
    ["p-value"]: its label starts with another letter. *)
Lemma series_setitem_p_value_second s p key value :
  p_value_second s p →
  p_value_second (series_setitem s ("Critical Value " ++ key) value) p.
Proof.
  intros ([l0 v0] & rest & ->). simpl.
  destruct (decide (l0 = "Critical Value " ++ key)).
  - eexists _, _. reflexivity.
  - destruct (decide ("p-value" = "Critical Value " ++ key)) as [E|_].
    + discriminate E.
    + eexists _, _. reflexivity.
Qed.

Lemma fold_setitem_p_value_second crit s p :
  p_value_second s p →
  p_value_second
    (fold_left (λ out kv, series_setitem out ("Critical Value " ++ fst kv) (snd kv))
               crit s) p.
Proof.
  revert s. induction crit as [|kv crit IH]; intros s Hs; simpl; [exact Hs|].
  apply IH. apply series_setitem_p_value_second. exact Hs.
Qed.

(** What [run_kpss_test] does once [kpss] has answered. *)
Lemma run_kpss_test_returns kpss repr_series (st : state NumFrame)
    regression result :
  kpss (table st) regression "auto" = inr result →
  ∃ st', run_kpss_test kpss repr_series regression st
         = (st', inr (negb (F64.leb (kpss_pvalue result) F64.lit_0_05)))
         ∧ table st' = table st ∧ display st' = display st.
Proof.
  intros H. unfold run_kpss_test. run_prefix. rewrite H. run_prefix.
  match goal with
  | |- context [fold_left ?f ?crit ?s0] =>
      destruct (fold_setitem_p_value_second crit s0 (kpss_pvalue result))
        as (first & rest & ->); [eexists _, _; reflexivity|]
  end.
  unfold series_getitem_int. simpl. run_prefix.
  destruct (F64.leb (kpss_pvalue result) F64.lit_0_05); run_prefix;
    eexists; (split; [reflexivity|]); simpl; auto.
Qed.

Lemma run_kpss_test_raises kpss repr_series (st : state NumFrame)
    regression e :
  kpss (table st) regression "auto" = inl e →
  ∃ st', run_kpss_test kpss repr_series regression st = (st', inl e)
         ∧ table st' = table st ∧ display st' = display st.
Proof.
  intros H. unfold run_kpss_test. run_prefix. rewrite H. run_prefix.
  eexists. split; [reflexivity|]. simpl. auto.
Qed.

(** C1.  Once the ADF routine has answered with a result, the verdict of
    [run_adfuller_test] is [true] when [p_value <= 0.05], and [false] when
    [p_value > 0.05] and more generally whenever [p_value <= 0.05] does not
    hold; at [p_value = 0.05] exactly it is [true]. *)
Theorem run_adfuller_test_verdict adfuller repr_float (st : state NumFrame)
    auto_lag result :
  adfuller (values (table st)) auto_lag = inr result →
  let verdict := snd (run_adfuller_test adfuller repr_float auto_lag st) in
  let p_value := adf_pvalue result in
  (F64.leb p_value F64.lit_0_05 = true → verdict = inr true) ∧
  (F64.ltb F64.lit_0_05 p_value = true → verdict = inr false) ∧
  (F64.leb p_value F64.lit_0_05 = false → verdict = inr false) ∧
  (p_value = F64.lit_0_05 → verdict = inr true).
Proof.
  intros H verdict p_value.
  destruct (run_adfuller_test_returns adfuller repr_float st auto_lag result H)
    as (st' & E & _).
  assert (Hv : verdict = inr (F64.leb p_value F64.lit_0_05))
    by (subst verdict; rewrite E; reflexivity).
  rewrite Hv. repeat split.
  - intros ->. reflexivity.
  - intros Hgt. rewrite (ltb_not_leb _ _ Hgt). reflexivity.
  - intros ->. reflexivity.
  - intros ->. reflexivity.
Qed.

Lemma run_adfuller_test_verdict_witness :
  snd (run_adfuller_test (answer_adf adf_boundary) no_text "AIC" one_series)
  = inr true.
Proof.
  destruct (run_adfuller_test_verdict (answer_adf adf_boundary) no_text
              one_series "AIC" adf_boundary eq_refl) as (_ & _ & _ & H).
  apply H. reflexivity.
Defined.

(** C2.  Once the KPSS routine has answered with a result, the verdict of
    [run_kpss_test] is [false] when [p_value <= 0.05], and [true] when
    [p_value > 0.05] and more generally whenever [p_value <= 0.05] does not
    hold; at [p_value = 0.05] exactly it is [false].  On equal p-values it
    is the negation of the ADF verdict. *)
Theorem run_kpss_test_verdict kpss repr_series (st : state NumFrame)
    regression result :
  kpss (table st) regression "auto" = inr result →
  let verdict := snd (run_kpss_test kpss repr_series regression st) in
  let p_value := kpss_pvalue result in
  (F64.leb p_value F64.lit_0_05 = true → verdict = inr false) ∧
  (F64.ltb F64.lit_0_05 p_value = true → verdict = inr true) ∧
  (F64.leb p_value F64.lit_0_05 = false → verdict = inr true) ∧
  (p_value = F64.lit_0_05 → verdict = inr false) ∧
  (∀ adfuller repr_float (st_adf : state NumFrame) auto_lag adf,
     adfuller (values (table st_adf)) auto_lag = inr adf →
     adf_pvalue adf = p_value →
     verdict = sum_map id negb
                 (snd (run_adfuller_test adfuller repr_float auto_lag st_adf))).
Proof.
  intros H verdict p_value.
  destruct (run_kpss_test_returns kpss repr_series st regression result H)
    as (st' & E & _).
  assert (Hv : verdict = inr (negb (F64.leb p_value F64.lit_0_05)))
    by (subst verdict; rewrite E; reflexivity).
  rewrite Hv. repeat split.
  - intros ->. reflexivity.
  - intros Hgt. rewrite (ltb_not_leb _ _ Hgt). reflexivity.
  - intros ->. reflexivity.
  - intros ->. reflexivity.
  - intros adfuller repr_float st_adf auto_lag adf Hadf Hp.
    destruct (run_adfuller_test_returns adfuller repr_float st_adf auto_lag adf Hadf)
      as (st'' & E' & _).
    rewrite E', Hp. reflexivity.
Qed.

Lemma run_kpss_test_verdict_witness :
  snd (run_kpss_test (answer_kpss kpss_boundary) no_text "c" one_series)
  = inr false.
Proof.
  destruct (run_kpss_test_verdict (answer_kpss kpss_boundary) no_text
              one_series "c" kpss_boundary eq_refl) as (_ & _ & _ & H & _).
  apply H. reflexivity.
Defined.

(** C4.  Two runs of [run_adfuller_test] whose test results carry the same
    p-value return the same verdict, whatever the statistic, the lags, the
    number of observations and the critical values are; and likewise two
    runs of [run_kpss_test]. *)
Theorem verdict_depends_on_p_value_only :
  (∀ adfuller1 adfuller2 repr1 repr2 (st1 st2 : state NumFrame) lag1 lag2 r1 r2,
     adfuller1 (values (table st1)) lag1 = inr r1 →
     adfuller2 (values (table st2)) lag2 = inr r2 →
     adf_pvalue r1 = adf_pvalue r2 →
     snd (run_adfuller_test adfuller1 repr1 lag1 st1)
     = snd (run_adfuller_test adfuller2 repr2 lag2 st2)) ∧
  (∀ kpss1 kpss2 repr1 repr2 (st1 st2 : state NumFrame) reg1 reg2 r1 r2,
     kpss1 (table st1) reg1 "auto" = inr r1 →
     kpss2 (table st2) reg2 "auto" = inr r2 →
     kpss_pvalue r1 = kpss_pvalue r2 →
     snd (run_kpss_test kpss1 repr1 reg1 st1)
     = snd (run_kpss_test kpss2 repr2 reg2 st2)).
Proof.
  split.
  - intros adfuller1 adfuller2 repr1 repr2 st1 st2 lag1 lag2 r1 r2 H1 H2 Hp.
    destruct (run_adfuller_test_returns adfuller1 repr1 st1 lag1 r1 H1) as (? & -> & _).
    destruct (run_adfuller_test_returns adfuller2 repr2 st2 lag2 r2 H2) as (? & -> & _).
    simpl. rewrite Hp. reflexivity.
  - intros kpss1 kpss2 repr1 repr2 st1 st2 reg1 reg2 r1 r2 H1 H2 Hp.
    destruct (run_kpss_test_returns kpss1 repr1 st1 reg1 r1 H1) as (? & -> & _).
    destruct (run_kpss_test_returns kpss2 repr2 st2 reg2 r2 H2) as (? & -> & _).
    simpl. rewrite Hp. reflexivity.
Qed.

Lemma verdict_depends_on_p_value_only_witness :
  snd (run_adfuller_test (answer_adf adf_boundary) no_text "AIC" one_series)
  = snd (run_adfuller_test (answer_adf adf_boundary') no_text "BIC" one_series)
  ∧ snd (run_kpss_test (answer_kpss kpss_boundary) no_text "c" one_series)
    = snd (run_kpss_test (answer_kpss kpss_boundary') no_text "ct" one_series).
Proof.
  split.
  - apply (proj1 verdict_depends_on_p_value_only
             (answer_adf adf_boundary) (answer_adf adf_boundary') no_text no_text
             one_series one_series "AIC" "BIC" adf_boundary adf_boundary');
      reflexivity.
  - apply (proj2 verdict_depends_on_p_value_only
             (answer_kpss kpss_boundary) (answer_kpss kpss_boundary') no_text no_text
             one_series one_series "c" "ct" kpss_boundary kpss_boundary');
      reflexivity.
Defined.

(** ** Sums over groups *)

Section Grouping.
Context {A K : Type} `{EqDecision K}.
Implicit Types (key : A → K) (w : A → nat) (ks : list K) (xs : list A).

Lemma sum_list_with_add (f g : K → nat) ks :
  sum_list_with (λ k, f k + g k)%nat ks
  = (sum_list_with f ks + sum_list_with g ks)%nat.
Proof. induction ks as [|k ks IH]; simpl; lia. Qed.

Lemma sum_list_with_ext_in (f g : K → nat) ks :
  (∀ k, k ∈ ks → f k = g k) → sum_list_with f ks = sum_list_with g ks.
Proof.
  induction ks as [|k ks IH]; intros Hfg; simpl; [reflexivity|].
  rewrite (Hfg k) by apply list_elem_of_here.
  rewrite IH; [reflexivity|]. intros k' Hk'. apply Hfg, list_elem_of_further, Hk'.
Qed.

Lemma sum_list_with_zero ks : sum_list_with (λ _ : K, 0%nat) ks = 0%nat.
Proof. induction ks; simpl; auto. Qed.

(** Over keys without duplicates, a weight placed on one key is counted
    once if the key is listed and not at all otherwise. *)
Lemma sum_list_with_indicator (k0 : K) (n : nat) ks :
  NoDup ks →
  sum_list_with (λ k, if decide (k0 = k) then n else 0%nat) ks
  = if decide (k0 ∈ ks) then n else 0%nat.
Proof.
  induction 1 as [|k ks Hk Hnd IH]; simpl.
  - destruct (decide (k0 ∈ [])) as [Hin|]; [inversion Hin|reflexivity].
  - rewrite IH. destruct (decide (k0 = k)) as [->|Hne].
    + destruct (decide (k ∈ ks)); [contradiction|].
      destruct (decide (k ∈ k :: ks)) as [|Hn]; [lia|].
      exfalso. apply Hn, list_elem_of_here.
    + destruct (decide (k0 ∈ ks)) as [Hin|Hin],
        (decide (k0 ∈ k :: ks)) as [Hin'|Hin']; try lia.
      * exfalso. apply Hin', list_elem_of_further, Hin.
      * exfalso. apply elem_of_cons in Hin'. destruct Hin'; contradiction.
Qed.

(** Summing group by group is summing over all elements, when the keys are
    listed once each and none is left out. *)
Lemma sum_list_with_group key w ks xs :
  NoDup ks → (∀ x, x ∈ xs → key x ∈ ks) →
  sum_list_with (λ k, sum_list_with w (filter (λ x, key x = k) xs)) ks
  = sum_list_with w xs.
Proof.
  intros Hnd. induction xs as [|x xs IH]; intros Hcover; simpl.
  - apply sum_list_with_zero.
  - rewrite <- IH by (intros; apply Hcover, list_elem_of_further; assumption).
    transitivity
      (sum_list_with
         (λ k, (if decide (key x = k) then w x else 0)
               + sum_list_with w (filter (λ x, key x = k) xs))%nat ks).
    + apply sum_list_with_ext_in. intros k _.
      rewrite filter_cons. destruct (decide (key x = k)); reflexivity.
    + rewrite sum_list_with_add, sum_list_with_indicator by exact Hnd.
      destruct (decide (key x ∈ ks)) as [|Hn]; [reflexivity|].
      exfalso. apply Hn, Hcover, list_elem_of_here.
Qed.

(** The same sum with the groups read off a filter of the keys. *)
Lemma sum_list_with_filter_fmap {B} (mk : K → B) (P : B → Prop)
    `{∀ b, Decision (P b)} (w' : B → nat) ks :
  sum_list_with w' (filter P (mk <$> ks))
  = sum_list_with (λ k, if decide (P (mk k)) then w' (mk k) else 0%nat) ks.
Proof.
  induction ks as [|k ks IH]; [reflexivity|].
  rewrite fmap_cons, filter_cons. cbn [sum_list_with].
  destruct (decide (P (mk k))); cbn [sum_list_with]; rewrite IH; reflexivity.
Qed.

End Grouping.

Lemma length_sum_list_with {A} (xs : list A) :
  length xs = sum_list_with (λ _, 1%nat) xs.
Proof. induction xs; simpl; auto. Qed.

(** Among the elements that satisfy [Q], those equal to [k] are all the
    elements equal to [k] if [k] satisfies [Q], and none otherwise. *)
Lemma filter_eq_filter {A} `{EqDecision A} (Q : A → Prop) `{∀ x, Decision (Q x)}
    (k : A) (xs : list A) :
  filter (λ x, x = k) (filter Q xs)
  = if decide (Q k) then filter (λ x, x = k) xs else [].
Proof.
  induction xs as [|x xs IH]; simpl.
  - destruct (decide (Q k)); reflexivity.
  - rewrite !filter_cons. destruct (decide (Q x)) as [Hq|Hq].
    + rewrite filter_cons, IH. destruct (decide (x = k)) as [->|];
        destruct (decide (Q k)); try reflexivity; contradiction.
    + rewrite IH. destruct (decide (x = k)) as [->|]; [|reflexivity].
      destruct (decide (Q k)); [contradiction|reflexivity].
Qed.

(** Counting by group over the elements that satisfy [Q]. *)
Lemma count_by_group {A} `{EqDecision A} (Q : A → Prop) `{∀ x, Decision (Q x)}
    (ks xs : list A) :
  NoDup ks → (∀ x, x ∈ xs → x ∈ ks) →
  sum_list_with (λ k, if decide (Q k) then length (filter (λ x, x = k) xs) else 0%nat) ks
  = length (filter Q xs).
Proof.
  intros Hnd Hcover.
  rewrite (length_sum_list_with (filter Q xs)).
  rewrite <- (sum_list_with_group id (λ _, 1%nat) ks (filter Q xs) Hnd).
  - apply sum_list_with_ext_in. intros k _. unfold id.
    rewrite filter_eq_filter, <- length_sum_list_with.
    destruct (decide (Q k)); reflexivity.
  - intros x Hx. apply Hcover. apply list_elem_of_filter in Hx. tauto.
Qed.

(** ** The threshold grouper *)

Lemma sum_list_with_fmap {A B} (g : A → B) (w : B → nat) (xs : list A) :
  sum_list_with w (g <$> xs) = sum_list_with (λ x, w (g x)) xs.
Proof. induction xs as [|x xs IH]; simpl; [reflexivity|]. rewrite <- IH. reflexivity. Qed.

Lemma length_filter_pos {A} (P : A → Prop) `{∀ x, Decision (P x)} (xs : list A) :
  (0 < length (filter P xs))%nat ↔ ∃ x, x ∈ xs ∧ P x.
Proof.
  split.
  - destruct (filter P xs) as [|x l] eqn:E; simpl; [lia|]. intros _.
    assert (Hx : x ∈ filter P xs) by (rewrite E; apply list_elem_of_here).
    apply list_elem_of_filter in Hx. exists x. tauto.
  - intros (x & Hx & HP).
    assert (Hin : x ∈ filter P xs) by (apply list_elem_of_filter; tauto).
    destruct (filter P xs); [inversion Hin|simpl; lia].
Qed.

(** Rows of one category, counted among the present values or in the
    column itself. *)
Lemma length_filter_present (Q : string → Prop) `{∀ x, Decision (Q x)}
    (P : option string → Prop) `{∀ c, Decision (P c)} (cells : list (option string)) :
  (∀ k, P (Some k) ↔ Q k) → ¬ P None →
  length (filter Q (omap id cells)) = length (filter P cells).
Proof.
  intros HPQ HN. induction cells as [|[s|] cells IH]; simpl; [reflexivity| |].
  - rewrite !filter_cons.
    destruct (decide (Q s)) as [Hq|Hq], (decide (P (Some s))) as [Hp|Hp].
    + cbn [length]. f_equal. exact IH.
    + exfalso. apply Hp, HPQ, Hq.
    + exfalso. apply Hq, HPQ, Hp.
    + exact IH.
  - rewrite filter_cons. destruct (decide (P None)); [contradiction|exact IH].
Qed.

Lemma count_present cells k :
  length (filter (λ x, x = k) (omap id cells)) = n_category cells k.
Proof.
  unfold n_category. apply length_filter_present.
  - intros k'. split; [intros [= ->]; reflexivity|intros ->; reflexivity].
  - discriminate.
Qed.

Lemma categories_NoDup cells : NoDup (categories cells).
Proof.
  unfold categories. rewrite merge_sort_Permutation. apply NoDup_remove_dups.
Qed.

Lemma elem_of_categories cells k : k ∈ categories cells ↔ Some k ∈ cells.
Proof.
  unfold categories. rewrite merge_sort_Permutation, elem_of_remove_dups.
  rewrite list_elem_of_omap. split.
  - intros ([x|] & Hx & E); simpl in E; [|discriminate].
    injection E as ->. exact Hx.
  - intros H. exists (Some k). auto.
Qed.

Lemma elem_of_present_categories cells x :
  x ∈ omap id cells → x ∈ categories cells.
Proof.
  intros H. unfold categories.
  rewrite merge_sort_Permutation, elem_of_remove_dups. exact H.
Qed.

Lemma groupby_size_categories cells :
  groupby_size cells = (λ k, (k, n_category cells k)) <$> categories cells.
Proof.
  unfold groupby_size, categories. cbv zeta. apply list_fmap_ext.
  intros i k _. rewrite count_present. reflexivity.
Qed.

(** The group sizes add up to the number of rows with a category. *)
Lemma groupby_size_total cells :
  sum_list (snd <$> groupby_size cells) = n_present cells.
Proof.
  rewrite groupby_size_categories, <- list_fmap_compose.
  rewrite sum_list_with_fmap. unfold n_present. simpl.
  rewrite (length_sum_list_with (omap id cells)).
  rewrite <- (sum_list_with_group id (λ _, 1%nat) (categories cells) (omap id cells)
                (categories_NoDup cells) (elem_of_present_categories cells)).
  apply sum_list_with_ext_in. intros k _.
  rewrite <- count_present, length_sum_list_with. reflexivity.
Qed.

(** [grouped_df] is empty exactly when no row has a category. *)
Lemma groupby_size_nil cells :
  groupby_size cells = [] ↔ ∀ c, c ∈ cells → c = None.
Proof.
  rewrite groupby_size_categories. split.
  - intros E [k|] Hc; [|reflexivity]. exfalso.
    apply elem_of_categories in Hc. apply fmap_nil_inv in E.
    rewrite E in Hc. inversion Hc.
  - intros Hall. destruct (categories cells) as [|k ks] eqn:E; [reflexivity|].
    exfalso. assert (Hk : k ∈ categories cells) by (rewrite E; apply list_elem_of_here).
    apply elem_of_categories, Hall in Hk. discriminate.
Qed.

(** The labelled rows, one per category, in terms of the column. *)
Lemma label_rows_categories threshold grouped_label cells :
  label_rows threshold grouped_label (groupby_size cells)
  = (λ k, GroupedRow k (n_category cells k) (fraction cells k)
            (final_label threshold grouped_label cells k))
      <$> categories cells.
Proof.
  unfold label_rows. rewrite groupby_size_total. cbv zeta.
  rewrite groupby_size_categories, <- list_fmap_compose.
  apply list_fmap_ext. intros i k _. simpl.
  unfold final_label, fraction.
  destruct (F64.ltb _ threshold); reflexivity.
Qed.

Lemma final_labels_NoDup threshold grouped_label cells :
  NoDup (final_labels threshold grouped_label cells).
Proof.
  unfold final_labels. rewrite merge_sort_Permutation. apply NoDup_remove_dups.
Qed.

Lemma elem_of_final_labels threshold grouped_label cells l :
  l ∈ final_labels threshold grouped_label cells
  ↔ ∃ k, Some k ∈ cells ∧ final_label threshold grouped_label cells k = l.
Proof.
  unfold final_labels.
  rewrite merge_sort_Permutation, elem_of_remove_dups, list_elem_of_fmap.
  split; intros (k & H1 & H2).
  - exists k. split; [apply elem_of_categories, H2|symmetry; exact H1].
  - exists k. split; [symmetry; exact H2|apply elem_of_categories, H1].
Qed.

(** The rows that end up under a label, counted among the present values. *)
Lemma n_final_present threshold grouped_label cells l :
  length (filter (λ x, final_label threshold grouped_label cells x = l)
                 (omap id cells))
  = n_final threshold grouped_label cells l.
Proof.
  unfold n_final. apply length_filter_present.
  - intros k. simpl. split; [intros [= E]; exact E|intros ->; reflexivity].
  - simpl. discriminate.
Qed.

Lemma n_final_pos threshold grouped_label cells l :
  (0 < n_final threshold grouped_label cells l)%nat
  ↔ l ∈ final_labels threshold grouped_label cells.
Proof.
  rewrite elem_of_final_labels. unfold n_final. rewrite length_filter_pos.
  split.
  - intros ([k|] & Hin & E); simpl in E; [|discriminate].
    exists k. split; [exact Hin|congruence].
  - intros (k & Hin & E). exists (Some k). split; [exact Hin|].
    simpl. rewrite E. reflexivity.
Qed.

(** [.groupby('label_cleaned').sizes.sum()] gives each final label the
    number of rows that end up under it. *)
Lemma groupby_sum_label_rows threshold grouped_label cells :
  groupby_sum (label_rows threshold grouped_label (groupby_size cells))
  = (λ l, (l, n_final threshold grouped_label cells l))
      <$> final_labels threshold grouped_label cells.
Proof.
  unfold groupby_sum. rewrite label_rows_categories.
  rewrite <- list_fmap_compose. unfold final_labels.
  apply list_fmap_ext. intros i l _. f_equal.
  rewrite sum_list_with_filter_fmap. simpl.
  rewrite <- n_final_present.
  rewrite <- (count_by_group
                (λ x, final_label threshold grouped_label cells x = l)
                (categories cells) (omap id cells)
                (categories_NoDup cells) (elem_of_present_categories cells)).
  apply sum_list_with_ext_in. intros k _.
  rewrite count_present. reflexivity.
Qed.

(** [sort_values] rearranges its argument into ascending order of count. *)
Lemma insert_by_count_Permutation g s : insert_by_count g s ≡ₚ g :: s.
Proof.
  induction s as [|h rest IH]; simpl; [reflexivity|].
  destruct (decide (count_le g h)); [reflexivity|].
  rewrite IH. apply Permutation_swap.
Qed.

Lemma sort_values_Permutation s : sort_values s ≡ₚ s.
Proof.
  induction s as [|g s IH]; simpl; [reflexivity|].
  rewrite insert_by_count_Permutation, IH. reflexivity.
Qed.

Lemma insert_by_count_Sorted g s :
  Sorted count_le s → Sorted count_le (insert_by_count g s).
Proof.
  induction 1 as [|h rest Hs IH Hh]; simpl.
  - repeat constructor.
  - destruct (decide (count_le g h)) as [Hle|Hgt].
    + constructor; [constructor; assumption|]. constructor. exact Hle.
    + constructor; [exact IH|].
      destruct Hh as [|h' rest' Hh']; simpl.
      * constructor. unfold count_le in *. lia.
      * destruct (decide (count_le g h')); constructor;
          [unfold count_le in *; lia | exact Hh'].
Qed.

Lemma sort_values_Sorted s : Sorted count_le (sort_values s).
Proof.
  induction s as [|g s IH]; simpl; [constructor|].
  apply insert_by_count_Sorted, IH.
Qed.

(** Groups of equal count keep their order. *)
Example sort_values_keeps_ties :
  sort_values [("a", 1%nat); ("b", 1%nat); ("c", 1%nat); ("d", 0%nat)]
  = [("d", 0%nat); ("a", 1%nat); ("b", 1%nat); ("c", 1%nat)].
Proof. reflexivity. Qed.

(** The plotted series is a rearrangement of the groups by final label. *)
Lemma pie_series_Permutation threshold grouped_label cells :
  pie_series threshold grouped_label (groupby_size cells)
  ≡ₚ (λ l, (l, n_final threshold grouped_label cells l))
       <$> final_labels threshold grouped_label cells.
Proof.
  unfold pie_series.
  rewrite sort_values_Permutation, groupby_sum_label_rows. reflexivity.
Qed.

Lemma pie_series_Sorted threshold grouped_label cells :
  Sorted count_le (pie_series threshold grouped_label (groupby_size cells)).
Proof. unfold pie_series. apply sort_values_Sorted. Qed.

Lemma pie_series_labels_NoDup threshold grouped_label cells :
  NoDup (fst <$> pie_series threshold grouped_label (groupby_size cells)).
Proof.
  rewrite pie_series_Permutation, <- list_fmap_compose.
  rewrite (list_fmap_ext _ id (final_labels threshold grouped_label cells))
    by (intros; reflexivity).
  rewrite list_fmap_id. apply final_labels_NoDup.
Qed.

Lemma elem_of_pie_series threshold grouped_label cells l n :
  (l, n) ∈ pie_series threshold grouped_label (groupby_size cells)
  ↔ n = n_final threshold grouped_label cells l ∧ (0 < n)%nat.
Proof.
  rewrite pie_series_Permutation, list_elem_of_fmap. split.
  - intros (l' & [= -> ->] & Hin). split; [reflexivity|].
    apply n_final_pos, Hin.
  - intros [-> Hpos]. exists l. split; [reflexivity|]. apply n_final_pos, Hpos.
Qed.

(** The counts that are plotted add up to the number of rows that have a
    category. *)
Lemma pie_series_total threshold grouped_label cells :
  sum_list_with snd (pie_series threshold grouped_label (groupby_size cells))
  = n_present cells.
Proof.
  rewrite pie_series_Permutation, sum_list_with_fmap. simpl.
  unfold n_present. rewrite (length_sum_list_with (omap id cells)).
  rewrite <- (sum_list_with_group (final_label threshold grouped_label cells)
                (λ _, 1%nat) (final_labels threshold grouped_label cells)
                (omap id cells) (final_labels_NoDup _ _ _)).
  - apply sum_list_with_ext_in. intros l _.
    rewrite <- n_final_present, length_sum_list_with. reflexivity.
  - intros x Hx. apply elem_of_final_labels. exists x. split; [|reflexivity].
    apply elem_of_categories, elem_of_present_categories, Hx.
Qed.

Lemma df_getitem_run {C} (name : string) (s : state (Frame C)) :
  df_getitem name s
  = (s, match getitem (table s) name with
        | Some c => inr c
        | None => inl (KeyError name)
        end).
Proof.
  unfold df_getitem, bind, get_table.
  destruct (getitem (table s) name); reflexivity.
Qed.

(** The one step the function takes on the drawing surface. *)
Lemma create_pie_chart_runs (st : state CatFrame) column_name title threshold
    grouped_label x_label y_label font_size start_angle cells :
  getitem (table st) column_name = Some cells →
  column_name ≠ "sizes" →
  create_pie_chart_with_grouped_threshold column_name title threshold
    grouped_label x_label y_label font_size start_angle st
  = (State (table st) (stdout st)
       (display st ++
        [if bool_decide (groupby_size cells ≠ [])
         then PiePlot (pie_series threshold grouped_label (groupby_size cells))
                title x_label y_label font_size start_angle
         else AxRemove]),
     inr ()).
Proof.
  intros H Hsizes. unfold create_pie_chart_with_grouped_threshold, bind.
  rewrite df_getitem_run, H.
  rewrite (bool_decide_eq_false_2 (column_name = "sizes") Hsizes).
  destruct (bool_decide (groupby_size cells ≠ [])); reflexivity.
Qed.

(** With no group to plot the axes are removed, whatever the column is
    called. *)
Lemma create_pie_chart_runs_empty (st : state CatFrame) column_name title
    threshold grouped_label x_label y_label font_size start_angle cells :
  getitem (table st) column_name = Some cells →
  groupby_size cells = [] →
  create_pie_chart_with_grouped_threshold column_name title threshold
    grouped_label x_label y_label font_size start_angle st
  = (State (table st) (stdout st) (display st ++ [AxRemove]), inr ()).
Proof.
  intros H E. unfold create_pie_chart_with_grouped_threshold, bind.
  rewrite df_getitem_run, H, E. reflexivity.
Qed.

(** A category column called [sizes] with a group to plot: line 35 raises. *)
Lemma create_pie_chart_runs_sizes (st : state CatFrame) title
    threshold grouped_label x_label y_label font_size start_angle cells :
  getitem (table st) "sizes" = Some cells →
  groupby_size cells ≠ [] →
  create_pie_chart_with_grouped_threshold "sizes" title threshold
    grouped_label x_label y_label font_size start_angle st
  = (st, inl TypeError).
Proof.
  intros H E. unfold create_pie_chart_with_grouped_threshold, bind.
  rewrite df_getitem_run, H.
  rewrite (bool_decide_eq_true_2 _ E). reflexivity.
Qed.

Lemma groupby_size_nonempty cells :
  (∃ k, Some k ∈ cells) → bool_decide (groupby_size cells ≠ []) = true.
Proof.
  intros (k & Hk). apply bool_decide_eq_true. intros E.
  pose proof (proj1 (groupby_size_nil cells) E _ Hk). discriminate.
Qed.

Lemma sum_exact_fractions_eq (total : nat) (s : list (string * nat)) :
  (0 < total)%nat →
  Qeq (sum_exact_fractions total s)
      (inject_Z (Z.of_nat (sum_list_with snd s)) / inject_Z (Z.of_nat total)).
Proof.
  intros Hpos.
  assert (Hne : ¬ Qeq (inject_Z (Z.of_nat total)) 0).
  { unfold Qeq. simpl. lia. }
  induction s as [|g s IH]; simpl.
  - unfold Qdiv. rewrite Qmult_0_l. reflexivity.
  - rewrite IH. unfold exact_fraction.
    rewrite Nat2Z.inj_add, inject_Z_plus. field. exact Hne.
Qed.

(** ** Rounding errors of the [float64] operations

    The operations of [SpecFloat] all end in [binary_round_aux], which
    drops the bits that do not fit, rounds to nearest and renormalises.
    Read as a truncation followed by at most one step up and one more
    truncation, it lands within a few units in the last place of the
    number it rounds; that gives the bound [F64.eps], relative, for every
    number of the normal range, and it is all the statements about sums of
    fractions need. *)

Lemma pow2_pos e : (0 < F64.pow2 e)%Q.
Proof. apply Qpower_0_lt. reflexivity. Qed.

Lemma pow2_add a b : (F64.pow2 (a + b) == F64.pow2 a * F64.pow2 b)%Q.
Proof. apply Qpower_plus. discriminate. Qed.

Lemma pow2_inject k : (0 <= k)%Z → (F64.pow2 k == inject_Z (2 ^ k))%Q.
Proof. intros Hk. unfold F64.pow2. rewrite Zpower_Qpower by exact Hk. reflexivity. Qed.

Lemma pow2_shift e k : (0 <= k)%Z → (F64.pow2 (e + k) == inject_Z (2 ^ k) * F64.pow2 e)%Q.
Proof. intros Hk. rewrite pow2_add, (pow2_inject k Hk). ring. Qed.

Lemma pow2_le a b : (a <= b)%Z → (F64.pow2 a <= F64.pow2 b)%Q.
Proof. intros H. apply Qpower_le_compat_l; [exact H|discriminate]. Qed.

Lemma pow2_lt_inv a b : (F64.pow2 a < F64.pow2 b)%Q → (a < b)%Z.
Proof. intros H. apply (Qpower_lt_compat_l_inv 2); [exact H|reflexivity]. Qed.

Lemma scaled_le m m' e : (m <= m')%Z → (F64.scaled m e <= F64.scaled m' e)%Q.
Proof.
  intros H. unfold F64.scaled. apply Qmult_le_compat_r.
  - rewrite <- Zle_Qle. exact H.
  - apply Qlt_le_weak, pow2_pos.
Qed.

Lemma scaled_lt_inv m m' e : (F64.scaled m e < F64.scaled m' e)%Q → (m < m')%Z.
Proof.
  unfold F64.scaled. intros H. rewrite Qmult_lt_r in H by apply pow2_pos.
  rewrite <- Zlt_Qlt in H. exact H.
Qed.

Lemma scaled_shift m e k : (0 <= k)%Z → (F64.scaled m (e + k) == F64.scaled (m * 2 ^ k) e)%Q.
Proof.
  intros Hk. unfold F64.scaled. rewrite (pow2_shift e k Hk), inject_Z_mult. ring.
Qed.

Lemma scaled_one e : (F64.scaled 1 e == F64.pow2 e)%Q.
Proof. unfold F64.scaled. ring. Qed.

Lemma scaled_plus m m' e : (F64.scaled (m + m') e == F64.scaled m e + F64.scaled m' e)%Q.
Proof. unfold F64.scaled. rewrite inject_Z_plus. ring. Qed.

(** Number of binary digits *)
Lemma digits2_pos_bounds (p : positive) :
  (2 ^ (Zpos (digits2_pos p) - 1) <= Zpos p < 2 ^ Zpos (digits2_pos p))%Z.
Proof.
  induction p as [p IH|p IH|]; cbn [digits2_pos].
  - rewrite Pos2Z.inj_succ.
    replace (Z.succ (Zpos (digits2_pos p)) - 1)%Z
      with (Z.succ (Zpos (digits2_pos p) - 1))%Z by lia.
    rewrite !Z.pow_succ_r by lia. lia.
  - rewrite Pos2Z.inj_succ.
    replace (Z.succ (Zpos (digits2_pos p)) - 1)%Z
      with (Z.succ (Zpos (digits2_pos p) - 1))%Z by lia.
    rewrite !Z.pow_succ_r by lia. lia.
  - simpl. lia.
Qed.

Lemma Zdigits2_bounds (m : Z) :
  (0 < m)%Z → (2 ^ (Zdigits2 m - 1) <= m < 2 ^ Zdigits2 m)%Z.
Proof. destruct m as [|p|p]; try lia. intros _. apply digits2_pos_bounds. Qed.

Lemma Zdigits2_nonneg (m : Z) : (0 <= Zdigits2 m)%Z.
Proof. destruct m; simpl; lia. Qed.

(** An upper bound on the digits from an upper bound on the number. *)
Lemma Zdigits2_le (m k : Z) : (0 <= k)%Z → (0 <= m)%Z → (m < 2 ^ k)%Z → (Zdigits2 m <= k)%Z.
Proof.
  intros Hk Hm Hlt. destruct (Z.eq_dec m 0) as [->|Hne]; [simpl; lia|].
  pose proof (Zdigits2_bounds m ltac:(lia)) as [Hlo _].
  destruct (Z.le_gt_cases (Zdigits2 m) k) as [|Hgt]; [assumption|].
  exfalso. assert (2 ^ k <= 2 ^ (Zdigits2 m - 1))%Z by (apply Z.pow_le_mono_r; lia).
  lia.
Qed.

(** Right shifts *)
Lemma shr_m_shr_1 mrs : (0 <= shr_m mrs)%Z → shr_m (shr_1 mrs) = (shr_m mrs / 2)%Z.
Proof.
  destruct mrs as [m r s]. cbn [shr_m]. intros Hm.
  destruct m as [|[p|p|]|p]; cbn [shr_1 shr_m]; try lia; try reflexivity.
  - apply (Z.div_unique _ _ _ 1); lia.
  - apply (Z.div_unique _ _ _ 0); lia.
Qed.

Lemma shr_m_iter_pos (p : positive) mrs :
  (0 <= shr_m mrs)%Z →
  shr_m (SpecFloat.iter_pos shr_1 p mrs) = (shr_m mrs / 2 ^ Zpos p)%Z.
Proof.
  revert mrs. induction p as [p IH|p IH|]; intros mrs Hm; cbn [SpecFloat.iter_pos].
  - assert (H1 : (0 <= shr_m (shr_1 mrs))%Z)
      by (rewrite shr_m_shr_1 by exact Hm; apply Z.div_pos; lia).
    assert (H2 : (0 <= shr_m (SpecFloat.iter_pos shr_1 p (shr_1 mrs)))%Z)
      by (rewrite IH by exact H1; apply Z.div_pos; lia).
    rewrite IH by exact H2. rewrite IH by exact H1. rewrite shr_m_shr_1 by exact Hm.
    rewrite !Z.div_div by lia. f_equal.
    rewrite Pos2Z.inj_xI, Z.pow_add_r, Z.pow_mul_r by lia.
    change (2 ^ 2)%Z with 4%Z. change (2 ^ 1)%Z with 2%Z.
    assert (E : (4 ^ Zpos p = 2 ^ Zpos p * 2 ^ Zpos p)%Z).
    { rewrite <- Z.pow_add_r by lia. replace (Zpos p + Zpos p)%Z with (2 * Zpos p)%Z by lia.
      rewrite Z.pow_mul_r by lia. reflexivity. }
    rewrite E. ring.
  - assert (H2 : (0 <= shr_m (SpecFloat.iter_pos shr_1 p mrs))%Z)
      by (rewrite IH by exact Hm; apply Z.div_pos; lia).
    rewrite IH by exact H2. rewrite IH by exact Hm.
    rewrite !Z.div_div by lia. f_equal.
    rewrite Pos2Z.inj_xO, <- Z.pow_add_r by lia. f_equal. lia.
  - rewrite shr_m_shr_1 by exact Hm. reflexivity.
Qed.

Lemma shr_m_shr_record_of_loc m l : shr_m (shr_record_of_loc m l) = m.
Proof. destruct l as [|[]]; reflexivity. Qed.

Lemma shr_spec mrs e n :
  (0 <= shr_m mrs)%Z →
  snd (shr mrs e n) = (e + Z.max n 0)%Z
  ∧ shr_m (fst (shr mrs e n)) = (shr_m mrs / 2 ^ Z.max n 0)%Z.
Proof.
  intros Hm. destruct n as [|p|p]; simpl.
  - split; [lia|]. rewrite Z.div_1_r. reflexivity.
  - split; [reflexivity|]. apply shr_m_iter_pos, Hm.
  - split; [lia|]. rewrite Z.div_1_r. reflexivity.
Qed.

Lemma round_nearest_even_cases m l :
  round_nearest_even m l = m ∨ round_nearest_even m l = (m + 1)%Z.
Proof.
  destruct l as [|[]]; simpl; auto. destruct (Z.even m); auto.
Qed.

Lemma fexp_eq e : fexp F64.prec F64.emax e = Z.max (e - 53) (-1074).
Proof. reflexivity. Qed.

Lemma shr_fexp_spec (m e : Z) (l : location) :
  (0 <= m)%Z →
  snd (shr_fexp F64.prec F64.emax m e l)
  = (e + Z.max (fexp F64.prec F64.emax (Zdigits2 m + e) - e) 0)%Z
  ∧ shr_m (fst (shr_fexp F64.prec F64.emax m e l))
    = (m / 2 ^ Z.max (fexp F64.prec F64.emax (Zdigits2 m + e) - e) 0)%Z.
Proof.
  intros Hm. unfold shr_fexp.
  destruct (shr_spec (shr_record_of_loc m l) e
              (fexp F64.prec F64.emax (Zdigits2 m + e) - e)) as [H1 H2].
  - rewrite shr_m_shr_record_of_loc. exact Hm.
  - rewrite shr_m_shr_record_of_loc in H2. split; assumption.
Qed.

(** Dropping [k] bits keeps a number between the truncated mantissa and
    its successor. *)
Lemma floor_enclosure (m k e : Z) (x : Q) :
  (0 <= k)%Z → (0 <= m)%Z →
  (F64.scaled m e <= x)%Q → (x <= F64.scaled (m + 1) e)%Q →
  (F64.scaled (m / 2 ^ k) (e + k) <= x)%Q ∧ (x <= F64.scaled (m / 2 ^ k + 1) (e + k))%Q.
Proof.
  intros Hk Hm Hlo Hhi.
  assert (Hp : (0 < 2 ^ k)%Z) by (apply Z.pow_pos_nonneg; lia).
  pose proof (Z.mul_div_le m (2 ^ k) Hp) as H1.
  pose proof (Z.mul_succ_div_gt m (2 ^ k) Hp) as H2.
  rewrite !(scaled_shift _ e k Hk). split.
  - eapply Qle_trans; [|exact Hlo]. apply scaled_le. lia.
  - eapply Qle_trans; [exact Hhi|]. apply scaled_le. lia.
Qed.

(** The magnitude of [m * 2^e]. *)
Lemma mag_le (m e E : Z) :
  (0 <= m)%Z → (e <= E)%Z → (F64.scaled m e < F64.pow2 E)%Q → (Zdigits2 m + e <= E)%Z.
Proof.
  intros Hm He Hlt. destruct (Z.eq_dec m 0) as [->|Hne]; [simpl; lia|].
  pose proof (Zdigits2_bounds m ltac:(lia)) as [Hlo _].
  assert (Hd : (0 <= Zdigits2 m - 1)%Z).
  { destruct m; simpl in *; lia. }
  assert (H : (F64.pow2 (e + (Zdigits2 m - 1)) < F64.pow2 E)%Q).
  { eapply Qle_lt_trans; [|exact Hlt].
    rewrite (pow2_shift e _ Hd). apply scaled_le. exact Hlo. }
  apply pow2_lt_inv in H. lia.
Qed.

Lemma scaled_pow2 e k : (0 <= k)%Z → (F64.scaled (2 ^ k) e == F64.pow2 (e + k))%Q.
Proof. intros Hk. rewrite (pow2_shift e k Hk). reflexivity. Qed.

Lemma scaled_succ m e : (F64.scaled (m + 1) e == F64.scaled m e + F64.pow2 e)%Q.
Proof. rewrite scaled_plus, scaled_one. reflexivity. Qed.

(** The rounding step of every operation: a number [x] known to lie between
    [mx * 2^ex] and [(mx + 1) * 2^ex], of magnitude [2^(E-1) <= x < 2^(E+1)]
    well inside the normal range, is rounded to a finite binary64 number
    within [2^(E-50)] of [x]. *)
Lemma binary_round_aux_error (mx ex : Z) (lx : location) (x : Q) (E : Z) :
  (0 <= mx)%Z →
  (F64.scaled mx ex <= x)%Q → (x <= F64.scaled (mx + 1) ex)%Q →
  (F64.pow2 (E - 1) <= x)%Q → (x < F64.pow2 (E + 1))%Q →
  (ex <= E - 52)%Z → (-1022 <= E <= 1022)%Z →
  ∃ m e, binary_round_aux F64.prec F64.emax false mx ex lx = S754_finite false m e
         ∧ (F64.scaled (Zpos m) e - x <= F64.pow2 (E - 50))%Q
         ∧ (x - F64.scaled (Zpos m) e <= F64.pow2 (E - 50))%Q.
Proof.
  intros Hmx Hlo Hhi Hxlo Hxhi Hex HE. unfold binary_round_aux.
  destruct (shr_fexp_spec mx ex lx Hmx) as [He1 Hm1].
  destruct (shr_fexp F64.prec F64.emax mx ex lx) as [mrs1 e1]. cbn [fst snd] in He1, Hm1.
  set (k1 := Z.max (fexp F64.prec F64.emax (Zdigits2 mx + ex) - ex) 0) in *.
  assert (Hk1 : (0 <= k1)%Z) by (subst k1; lia).
  destruct (floor_enclosure mx k1 ex x Hk1 Hmx Hlo Hhi) as [Hlo1 Hhi1].
  rewrite <- He1, <- Hm1 in Hlo1, Hhi1.
  set (m1 := shr_m mrs1) in *.
  assert (Hm1' : (0 <= m1)%Z) by (rewrite Hm1; apply Z.div_pos; [lia|apply Z.pow_pos_nonneg; lia]).
  (* the exponent after the first shift *)
  assert (Hd1 : (Zdigits2 mx + ex <= E + 1)%Z).
  { apply mag_le; [exact Hmx|lia|]. eapply Qle_lt_trans; [exact Hlo|exact Hxhi]. }
  assert (He1' : (e1 <= E - 52)%Z).
  { rewrite He1. subst k1. rewrite fexp_eq. lia. }
  (* rounding to nearest *)
  set (m2 := round_nearest_even m1 (loc_of_shr_record mrs1)).
  assert (Hm2 : m2 = m1 ∨ m2 = (m1 + 1)%Z) by apply round_nearest_even_cases.
  assert (Hm2' : (0 <= m2)%Z) by lia.
  assert (Hm1lt : (m1 < 2 ^ (E + 1 - e1))%Z).
  { apply (scaled_lt_inv _ _ e1). eapply Qle_lt_trans; [exact Hlo1|].
    eapply Qlt_le_trans; [exact Hxhi|].
    rewrite scaled_pow2 by lia. apply pow2_le. lia. }
  assert (Hm2le : (F64.scaled m2 e1 < F64.pow2 (E + 2))%Q).
  { eapply Qle_lt_trans; [apply (scaled_le m2 (2 ^ (E + 1 - e1)) e1); lia|].
    rewrite scaled_pow2 by lia.
    replace (e1 + (E + 1 - e1))%Z with (E + 1)%Z by lia.
    apply Qpower_lt_compat_l; [lia|reflexivity]. }
  destruct (shr_fexp_spec m2 e1 loc_Exact Hm2') as [He3 Hm3].
  destruct (shr_fexp F64.prec F64.emax m2 e1 loc_Exact) as [mrs3 e3]. cbn [fst snd] in He3, Hm3.
  set (k2 := Z.max (fexp F64.prec F64.emax (Zdigits2 m2 + e1) - e1) 0) in *.
  assert (Hk2 : (0 <= k2)%Z) by (subst k2; lia).
  destruct (floor_enclosure m2 k2 e1 (F64.scaled m2 e1) Hk2 Hm2') as [Hlo3 Hhi3].
  { apply Qle_refl. }
  { apply scaled_le. lia. }
  rewrite <- He3, <- Hm3 in Hlo3, Hhi3.
  set (m3 := shr_m mrs3) in *.
  assert (Hd2 : (Zdigits2 m2 + e1 <= E + 2)%Z).
  { apply mag_le; [exact Hm2'|lia|exact Hm2le]. }
  assert (He3' : (e3 <= E - 51)%Z).
  { rewrite He3. subst k2. rewrite fexp_eq. lia. }
  (* the bounds, in units of 2^(E-52) *)
  pose proof (pow2_pos (E - 52)) as Hu.
  pose proof (pow2_le e1 (E - 52) He1') as Hu1.
  pose proof (pow2_le e3 (E - 51) He3') as Hu3.
  assert (U51 : (F64.pow2 (E - 51) == 2 * F64.pow2 (E - 52))%Q).
  { replace (E - 51)%Z with (E - 52 + 1)%Z by lia.
    rewrite pow2_shift by lia. reflexivity. }
  assert (U50 : (F64.pow2 (E - 50) == 4 * F64.pow2 (E - 52))%Q).
  { replace (E - 50)%Z with (E - 52 + 2)%Z by lia.
    rewrite pow2_shift by lia. reflexivity. }
  assert (U1 : (F64.pow2 (E - 1) == inject_Z (2 ^ 51) * F64.pow2 (E - 52))%Q).
  { replace (E - 1)%Z with (E - 52 + 51)%Z by lia.
    rewrite pow2_shift by lia. reflexivity. }
  rewrite scaled_succ in Hhi1, Hhi3.
  assert (H2 : (F64.scaled m2 e1 - x <= F64.pow2 e1)%Q ∧ (x - F64.scaled m2 e1 <= F64.pow2 e1)%Q).
  { destruct Hm2 as [->| ->]; [|rewrite scaled_succ]; split; lra. }
  destruct H2 as [H2a H2b].
  assert (Hpos : (0 < F64.scaled m3 e3)%Q).
  { change (2 ^ 51)%Z with 2251799813685248%Z in U1.
    unfold inject_Z in U1. lra. }
  assert (Hm3pos : (0 < m3)%Z).
  { apply (scaled_lt_inv _ _ e3). unfold F64.scaled at 1. simpl inject_Z.
    rewrite Qmult_0_l. exact Hpos. }
  destruct m3 as [|m|m] eqn:Em3; [lia| |lia].
  destruct (Z.leb_spec e3 (F64.emax - F64.prec)) as [_|Hbad];
    [|unfold F64.emax, F64.prec in Hbad; lia].
  exists m, e3. split; [reflexivity|]. split; lra.
Qed.

Lemma pow2_49 E : (F64.pow2 (E - 1) == inject_Z (2 ^ 49) * F64.pow2 (E - 50))%Q.
Proof.
  replace (E - 1)%Z with (E - 50 + 49)%Z by lia.
  rewrite pow2_shift by lia. reflexivity.
Qed.

(** From an absolute to a relative bound. *)
Lemma relative_error (E : Z) (x y : Q) :
  (F64.pow2 (E - 1) <= x)%Q →
  (y - x <= F64.pow2 (E - 50))%Q → (x - y <= F64.pow2 (E - 50))%Q →
  (y - x <= F64.eps * x)%Q ∧ (x - y <= F64.eps * x)%Q.
Proof.
  intros Hx H1 H2. pose proof (pow2_49 E) as H.
  change (2 ^ 49)%Z with 562949953421312%Z in H.
  pose proof (pow2_pos (E - 50)). unfold F64.eps, inject_Z in *. split; lra.
Qed.

Lemma Pos_iter_xO (m d : positive) :
  Zpos (Pos.iter xO m d) = (Zpos m * 2 ^ Zpos d)%Z.
Proof.
  induction d as [|d IH] using Pos.peano_ind.
  - simpl. lia.
  - rewrite Pos.iter_succ, Pos2Z.inj_xO, IH, Pos2Z.inj_succ, Z.pow_succ_r by lia. ring.
Qed.

Lemma shl_align_spec (mx : positive) (ex ex' : Z) :
  snd (shl_align mx ex ex') = Z.min ex ex'
  ∧ Zpos (fst (shl_align mx ex ex'))
    = (Zpos mx * 2 ^ (ex - Z.min ex ex'))%Z.
Proof.
  unfold shl_align. destruct (ex' - ex)%Z as [|d|d] eqn:Ed; cbn [fst snd].
  - replace (Z.min ex ex') with ex by lia. rewrite Z.sub_diag. split; lia.
  - replace (Z.min ex ex') with ex by lia. rewrite Z.sub_diag. split; lia.
  - replace (Z.min ex ex') with ex' by lia. split; [reflexivity|].
    rewrite Pos_iter_xO. f_equal. f_equal. lia.
Qed.

(** The magnitude of a positive number [m * 2^e]. *)
Lemma mag_bounds (m : positive) (e : Z) :
  (F64.pow2 (Zpos (digits2_pos m) + e - 1) <= F64.scaled (Zpos m) e)%Q
  ∧ (F64.scaled (Zpos m) e < F64.pow2 (Zpos (digits2_pos m) + e))%Q.
Proof.
  pose proof (digits2_pos_bounds m) as [Hlo Hhi].
  assert (Hd : (0 <= Zpos (digits2_pos m) - 1)%Z) by lia.
  split.
  - replace (Zpos (digits2_pos m) + e - 1)%Z with (e + (Zpos (digits2_pos m) - 1))%Z by lia.
    rewrite <- scaled_pow2 by lia. apply scaled_le. exact Hlo.
  - replace (Zpos (digits2_pos m) + e)%Z with (e + Zpos (digits2_pos m))%Z by lia.
    rewrite <- scaled_pow2 by lia. unfold F64.scaled.
    apply Qmult_lt_r; [apply pow2_pos|]. rewrite <- Zlt_Qlt. exact Hhi.
Qed.

(** Rounding a positive number [m * 2^e] of the normal range. *)
Lemma binary_round_error (mx : positive) (ex : Z) :
  (-1021 <= Zpos (digits2_pos mx) + ex <= 1022)%Z →
  ∃ m e, binary_round F64.prec F64.emax false mx ex = S754_finite false m e
         ∧ (F64.scaled (Zpos m) e - F64.scaled (Zpos mx) ex <= F64.eps * F64.scaled (Zpos mx) ex)%Q
         ∧ (F64.scaled (Zpos mx) ex - F64.scaled (Zpos m) e <= F64.eps * F64.scaled (Zpos mx) ex)%Q.
Proof.
  intros HE. unfold binary_round.
  destruct (shl_align_spec mx ex (fexp F64.prec F64.emax (Zpos (digits2_pos mx) + ex)))
    as [Hez Hmz].
  destruct (shl_align mx ex _) as [mz ez]. cbn [fst snd] in Hez, Hmz.
  set (E := (Zpos (digits2_pos mx) + ex)%Z) in *.
  destruct (mag_bounds mx ex) as [Hlo Hhi]. fold E in Hlo, Hhi.
  assert (Hval : (F64.scaled (Zpos mz) ez == F64.scaled (Zpos mx) ex)%Q).
  { rewrite Hmz. rewrite <- scaled_shift by lia. f_equiv. lia. }
  destruct (binary_round_aux_error (Zpos mz) ez loc_Exact (F64.scaled (Zpos mx) ex) E)
    as (m & e & Hr & H1 & H2).
  - lia.
  - rewrite Hval. apply Qle_refl.
  - rewrite <- Hval. apply scaled_le. lia.
  - exact Hlo.
  - eapply Qlt_le_trans; [exact Hhi|]. apply pow2_le. lia.
  - rewrite Hez, fexp_eq. lia.
  - lia.
  - exists m, e. split; [exact Hr|].
    apply (relative_error E); assumption.
Qed.

Lemma scaled_mult a e b f : (F64.scaled a e * F64.scaled b f == F64.scaled (a * b) (e + f))%Q.
Proof. unfold F64.scaled. rewrite inject_Z_mult, pow2_add. ring. Qed.

Lemma scaled_pos (m : positive) e : (0 < F64.scaled (Zpos m) e)%Q.
Proof.
  unfold F64.scaled. apply Qmult_lt_0_compat; [|apply pow2_pos].
  change 0%Q with (inject_Z 0). rewrite <- Zlt_Qlt. lia.
Qed.

(** The quotient of two positive numbers, when it is of the normal range. *)
Lemma SFdiv_error (m1 m2 : positive) (e1 e2 : Z) :
  (-1021 <= Zpos (digits2_pos m1) + e1 - (Zpos (digits2_pos m2) + e2) <= 1022)%Z →
  ∃ m e, SFdiv F64.prec F64.emax (S754_finite false m1 e1) (S754_finite false m2 e2)
         = S754_finite false m e
         ∧ (F64.scaled (Zpos m) e - F64.scaled (Zpos m1) e1 / F64.scaled (Zpos m2) e2
            <= F64.eps * (F64.scaled (Zpos m1) e1 / F64.scaled (Zpos m2) e2))%Q
         ∧ (F64.scaled (Zpos m1) e1 / F64.scaled (Zpos m2) e2 - F64.scaled (Zpos m) e
            <= F64.eps * (F64.scaled (Zpos m1) e1 / F64.scaled (Zpos m2) e2))%Q.
Proof.
  intros HE. unfold SFdiv, SFdiv_core_binary. cbn [Zdigits2 xorb].
  set (d1 := Zpos (digits2_pos m1)) in *. set (d2 := Zpos (digits2_pos m2)) in *.
  set (E := (d1 + e1 - (d2 + e2))%Z) in *.
  set (e' := Z.min (fexp F64.prec F64.emax E) (e1 - e2)).
  set (s := (e1 - e2 - e')%Z).
  assert (Hs : (0 <= s)%Z) by (subst s e'; lia).
  set (m' := match s with Zpos _ => Z.shiftl (Zpos m1) s | Z0 => Zpos m1 | Zneg _ => Z0 end).
  assert (Hm' : m' = (Zpos m1 * 2 ^ s)%Z).
  { subst m'. destruct s as [|p|p] eqn:Es.
    - simpl. lia.
    - rewrite Z.shiftl_mul_pow2 by lia. reflexivity.
    - lia. }
  pose proof (Z_div_mod m' (Zpos m2) ltac:(lia)) as Hdiv.
  destruct (Z.div_eucl m' (Zpos m2)) as [q r]. destruct Hdiv as [Hq Hr].
  assert (Hq0 : (0 <= q)%Z).
  { assert (0 <= m')%Z by (rewrite Hm'; apply Z.mul_nonneg_nonneg; [lia|apply Z.pow_nonneg; lia]).
    nia. }
  set (X := F64.scaled (Zpos m1) e1). set (Y := F64.scaled (Zpos m2) e2).
  assert (HY : (0 < Y)%Q) by apply scaled_pos.
  assert (HX : (X == F64.scaled m' (e' + e2))%Q).
  { subst X. rewrite Hm', <- scaled_shift by exact Hs. f_equiv. subst s. lia. }
  destruct (mag_bounds m1 e1) as [HXlo HXhi]. destruct (mag_bounds m2 e2) as [HYlo HYhi].
  fold d1 X in HXlo, HXhi. fold d2 Y in HYlo, HYhi.
  destruct (binary_round_aux_error q e' (new_location (Zpos m2) r) (X / Y) E)
    as (m & e & Hres & H1 & H2).
  - exact Hq0.
  - apply Qle_shift_div_l; [exact HY|]. subst Y. rewrite scaled_mult, HX.
    apply scaled_le. lia.
  - apply Qle_shift_div_r; [exact HY|]. subst Y. rewrite scaled_mult, HX.
    apply scaled_le. lia.
  - apply Qle_shift_div_l; [exact HY|].
    eapply Qle_trans; [|exact HXlo].
    replace (d1 + e1 - 1)%Z with ((E - 1) + (d2 + e2))%Z by (subst E; lia).
    rewrite pow2_add. apply Qmult_le_l; [apply pow2_pos|]. apply Qlt_le_weak, HYhi.
  - apply Qlt_shift_div_r; [exact HY|].
    eapply Qlt_le_trans; [exact HXhi|].
    replace (d1 + e1)%Z with ((E + 1) + (d2 + e2 - 1))%Z by (subst E; lia).
    rewrite pow2_add. apply Qmult_le_l; [apply pow2_pos|]. exact HYlo.
  - subst e'. rewrite fexp_eq. lia.
  - lia.
  - exists m, e. split; [exact Hres|].
    apply (relative_error E); [|assumption|assumption].
    apply Qle_shift_div_l; [exact HY|].
    eapply Qle_trans; [|exact HXlo].
    replace (d1 + e1 - 1)%Z with ((E - 1) + (d2 + e2))%Z by (subst E; lia).
    rewrite pow2_add. apply Qmult_le_l; [apply pow2_pos|]. apply Qlt_le_weak, HYhi.
Qed.

Lemma ratio_bound (A B C T F : Q) :
  (0 < C)%Q → (0 < T)%Q → (0 < B)%Q →
  (A - C <= F64.eps * C)%Q → (C - A <= F64.eps * C)%Q →
  (B - T <= F64.eps * T)%Q → (T - B <= F64.eps * T)%Q →
  (F - A / B <= F64.eps * (A / B))%Q → (A / B - F <= F64.eps * (A / B))%Q →
  (F - C / T <= (5 * F64.eps) * (C / T))%Q ∧ (C / T - F <= (5 * F64.eps) * (C / T))%Q.
Proof.
  intros HC HT HB HA1 HA2 HB1 HB2 HF1 HF2.
  set (X := (A / B)%Q) in *. set (Y := (C / T)%Q).
  assert (HX : (X * B == A)%Q) by (subst X; field; lra).
  assert (HY : (Y * T == C)%Q) by (subst Y; field; lra).
  assert (HY0 : (0 < Y)%Q).
  { subst Y. apply Qlt_shift_div_l; lra. }
  unfold F64.eps in *.
  assert (Hup : (X <= (1 + (3 # 562949953421312)) * Y)%Q).
  { apply (Qmult_le_r _ _ B HB). nra. }
  assert (Hlo : ((1 - (3 # 562949953421312)) * Y <= X)%Q).
  { apply (Qmult_le_r _ _ B HB). nra. }
  split; nra.
Qed.

Lemma scaled_0 m : (F64.scaled m 0 == inject_Z m)%Q.
Proof. unfold F64.scaled, F64.pow2. simpl. ring. Qed.

(** The conversion of a positive [int64]. *)
Lemma of_Z_error (n : Z) :
  (1 <= n < 2 ^ 63)%Z →
  ∃ m e, binary_normalize F64.prec F64.emax n 0 false = S754_finite false m e
         ∧ (F64.scaled (Zpos m) e - inject_Z n <= F64.eps * inject_Z n)%Q
         ∧ (inject_Z n - F64.scaled (Zpos m) e <= F64.eps * inject_Z n)%Q
         ∧ (0 <= Zpos (digits2_pos m) + e <= 64)%Z.
Proof.
  intros Hn. destruct n as [|p|p]; try lia. cbn [binary_normalize].
  assert (Hd : (1 <= Zpos (digits2_pos p) <= 63)%Z).
  { split; [lia|]. apply (Zdigits2_le (Zpos p) 63); lia. }
  destruct (binary_round_error p 0 ltac:(lia)) as (m & e & Hr & H1 & H2).
  rewrite scaled_0 in H1, H2.
  exists m, e. split; [exact Hr|]. split; [exact H1|]. split; [exact H2|].
  destruct (mag_bounds m e) as [Hlo Hhi].
  assert (Hn1 : (1 <= inject_Z (Zpos p))%Q).
  { change 1%Q with (inject_Z 1). rewrite <- Zle_Qle. lia. }
  assert (Hn2 : (inject_Z (Zpos p) <= inject_Z (2 ^ 63))%Q).
  { rewrite <- Zle_Qle. lia. }
  change (inject_Z (2 ^ 63)) with (9223372036854775808 # 1)%Q in Hn2.
  set (N := inject_Z (Zpos p)) in *. unfold F64.eps in H1, H2.
  assert (Hup : (F64.pow2 (Zpos (digits2_pos m) + e - 1) < F64.pow2 64)%Q).
  { eapply Qle_lt_trans; [exact Hlo|]. rewrite (pow2_inject 64) by lia.
    change (inject_Z (2 ^ 64)) with (18446744073709551616 # 1)%Q. lra. }
  assert (Hdn : (F64.pow2 (-1) < F64.pow2 (Zpos (digits2_pos m) + e))%Q).
  { eapply Qle_lt_trans; [|exact Hhi].
    change (F64.pow2 (-1)) with (1 # 2)%Q. lra. }
  apply pow2_lt_inv in Hup, Hdn. lia.
Qed.

(** The binary64 fraction of a count in a total: a finite number within
    [5 * 2^-49] of the exact quotient, relatively. *)
Lemma float_fraction_error (c T : Z) :
  (1 <= c < 2 ^ 63)%Z → (1 <= T < 2 ^ 63)%Z →
  ∃ m e, SFdiv F64.prec F64.emax (binary_normalize F64.prec F64.emax c 0 false)
                       (binary_normalize F64.prec F64.emax T 0 false)
         = S754_finite false m e
         ∧ (F64.scaled (Zpos m) e - inject_Z c / inject_Z T
            <= (5 * F64.eps) * (inject_Z c / inject_Z T))%Q
         ∧ (inject_Z c / inject_Z T - F64.scaled (Zpos m) e
            <= (5 * F64.eps) * (inject_Z c / inject_Z T))%Q.
Proof.
  intros Hc HT.
  destruct (of_Z_error c Hc) as (m1 & e1 & -> & Ha1 & Ha2 & Hd1).
  destruct (of_Z_error T HT) as (m2 & e2 & -> & Hb1 & Hb2 & Hd2).
  destruct (SFdiv_error m1 m2 e1 e2 ltac:(lia)) as (m & e & Hr & H1 & H2).
  exists m, e. split; [exact Hr|].
  apply (ratio_bound (F64.scaled (Zpos m1) e1) (F64.scaled (Zpos m2) e2)); try assumption.
  - change 0%Q with (inject_Z 0). rewrite <- Zlt_Qlt. lia.
  - change 0%Q with (inject_Z 0). rewrite <- Zlt_Qlt. lia.
  - apply scaled_pos.
Qed.

(** The sum of two positive numbers between [2^-64] and [4]. *)
Lemma SFadd_error (m1 m2 : positive) (e1 e2 : Z) :
  ((1 # 18446744073709551616) <= F64.scaled (Zpos m1) e1 + F64.scaled (Zpos m2) e2)%Q →
  (F64.scaled (Zpos m1) e1 + F64.scaled (Zpos m2) e2 < 4)%Q →
  ∃ m e, SFadd F64.prec F64.emax (S754_finite false m1 e1) (S754_finite false m2 e2)
         = S754_finite false m e
         ∧ (F64.scaled (Zpos m) e - (F64.scaled (Zpos m1) e1 + F64.scaled (Zpos m2) e2)
            <= F64.eps * (F64.scaled (Zpos m1) e1 + F64.scaled (Zpos m2) e2))%Q
         ∧ (F64.scaled (Zpos m1) e1 + F64.scaled (Zpos m2) e2 - F64.scaled (Zpos m) e
            <= F64.eps * (F64.scaled (Zpos m1) e1 + F64.scaled (Zpos m2) e2))%Q.
Proof.
  intros Hlo Hhi. unfold SFadd. cbn [cond_Zopp].
  set (ez := Z.min e1 e2).
  destruct (shl_align_spec m1 e1 ez) as [_ Ha]. destruct (shl_align_spec m2 e2 ez) as [_ Hb].
  replace (Z.min e1 ez) with ez in Ha by (subst ez; lia).
  replace (Z.min e2 ez) with ez in Hb by (subst ez; lia).
  set (a := fst (shl_align m1 e1 ez)) in *. set (b := fst (shl_align m2 e2 ez)) in *.
  change (Zpos a + Zpos b)%Z with (Zpos (a + b)). cbn [binary_normalize].
  assert (Hval : (F64.scaled (Zpos (a + b)) ez
                  == F64.scaled (Zpos m1) e1 + F64.scaled (Zpos m2) e2)%Q).
  { rewrite Pos2Z.inj_add, scaled_plus, Ha, Hb.
    rewrite <- !scaled_shift by (subst ez; lia).
    replace (ez + (e1 - ez))%Z with e1 by lia.
    replace (ez + (e2 - ez))%Z with e2 by lia. reflexivity. }
  rewrite <- Hval in Hlo, Hhi.
  destruct (mag_bounds (a + b) ez) as [Hmlo Hmhi].
  assert (Hup : (F64.pow2 (Zpos (digits2_pos (a + b)) + ez - 1) < F64.pow2 2)%Q).
  { eapply Qle_lt_trans; [exact Hmlo|]. change (F64.pow2 2) with 4%Q. exact Hhi. }
  assert (Hdn : (F64.pow2 (-64) < F64.pow2 (Zpos (digits2_pos (a + b)) + ez))%Q).
  { eapply Qle_lt_trans; [|exact Hmhi].
    change (F64.pow2 (-64)) with (1 # 18446744073709551616)%Q. exact Hlo. }
  apply pow2_lt_inv in Hup, Hdn.
  destruct (binary_round_error (a + b) ez ltac:(lia)) as (m & e & Hr & H1 & H2).
  rewrite Hval in H1, H2. exists m, e. auto.
Qed.

Lemma sum_Q_summands_nonneg xs : Forall summand xs → (0 <= sum_Q (F64.to_Q <$> xs))%Q.
Proof.
  induction 1 as [|x xs (m & e & -> & Hx) _ IH]; [apply Qle_refl|].
  cbn [fmap list_fmap sum_Q foldr F64.to_Q].
  change (foldr Qplus 0%Q (F64.to_Q <$> xs)) with (sum_Q (F64.to_Q <$> xs)).
  pose proof (scaled_pos m e). lra.
Qed.

Lemma inject_nat_S (n : nat) :
  (inject_Z (Z.of_nat (S n)) == inject_Z (Z.of_nat n) + 1)%Q.
Proof. rewrite Nat2Z.inj_succ. unfold Z.succ. rewrite inject_Z_plus. reflexivity. Qed.

Lemma inject_nat_nonneg (n : nat) : (0 <= inject_Z (Z.of_nat n))%Q.
Proof. change 0%Q with (inject_Z 0). rewrite <- Zle_Qle. lia. Qed.

(** Adding up positive numbers from left to right: every addition is off
    by at most [3 * F64.eps] as long as the sums stay below 3. *)
Lemma fold_add_error (xs : list float64) (acc : float64) (a : Q) (n : nat) :
  Forall summand xs →
  (acc = S754_zero false ∨ ∃ m e, acc = S754_finite false m e) →
  (0 <= a)%Q →
  (F64.to_Q acc - a <= inject_Z (Z.of_nat n) * (3 * F64.eps))%Q →
  (a - F64.to_Q acc <= inject_Z (Z.of_nat n) * (3 * F64.eps))%Q →
  (a + sum_Q (F64.to_Q <$> xs) <= 2)%Q →
  (inject_Z (Z.of_nat (n + length xs)) * (3 * F64.eps) <= 1)%Q →
  (fold_left F64.add xs acc = S754_zero false
   ∨ ∃ m e, fold_left F64.add xs acc = S754_finite false m e)
  ∧ (F64.to_Q (fold_left F64.add xs acc) - (a + sum_Q (F64.to_Q <$> xs))
     <= inject_Z (Z.of_nat (n + length xs)) * (3 * F64.eps))%Q
  ∧ (a + sum_Q (F64.to_Q <$> xs) - F64.to_Q (fold_left F64.add xs acc)
     <= inject_Z (Z.of_nat (n + length xs)) * (3 * F64.eps))%Q.
Proof.
  intros Hxs. revert acc a n.
  induction Hxs as [|x xs (mx & ex & -> & Hx) Hrest IH]; intros acc a n Hacc Ha H1 H2 Hsum Hn.
  - simpl in *. rewrite Nat.add_0_r in *. split; [exact Hacc|]. split; lra.
  - cbn [fold_left fmap list_fmap sum_Q foldr length] in *.
    change (foldr Qplus 0%Q (F64.to_Q <$> xs)) with (sum_Q (F64.to_Q <$> xs)) in *.
    cbn [F64.to_Q] in *.
    pose proof (sum_Q_summands_nonneg xs Hrest) as Hnn.
    pose proof (inject_nat_nonneg n) as Hn0.
    pose proof (inject_nat_nonneg (length xs)) as Hl0.
    replace (n + S (length xs))%nat with (S n + length xs)%nat in * by lia.
    assert (HnS : (inject_Z (Z.of_nat (S n + length xs))
                   == inject_Z (Z.of_nat n) + 1 + inject_Z (Z.of_nat (length xs)))%Q).
    { rewrite Nat2Z.inj_add, inject_Z_plus, inject_nat_S. reflexivity. }
    assert (Hn' : (inject_Z (Z.of_nat n) * (3 * F64.eps) <= 1)%Q).
    { rewrite HnS in Hn. unfold F64.eps in *. lra. }
    set (v := F64.scaled (Zpos mx) ex) in *.
    assert (Hstep : ∃ acc',
              F64.add acc (S754_finite false mx ex) = acc'
              ∧ (∃ m e, acc' = S754_finite false m e)
              ∧ (F64.to_Q acc' - (a + v) <= inject_Z (Z.of_nat (S n)) * (3 * F64.eps))%Q
              ∧ (a + v - F64.to_Q acc' <= inject_Z (Z.of_nat (S n)) * (3 * F64.eps))%Q).
    { pose proof (inject_nat_S n) as HS. destruct Hacc as [->|(m & e & ->)].
      - exists (S754_finite false mx ex). split; [reflexivity|]. split; [eauto|].
        cbn [F64.to_Q] in *. fold v. unfold F64.eps in *. split; lra.
      - cbn [F64.to_Q] in H1, H2.
        destruct (SFadd_error m mx e ex) as (m' & e' & Hr & Hr1 & Hr2).
        + fold v. pose proof (scaled_pos m e). lra.
        + fold v. unfold F64.eps in *. lra.
        + fold v in Hr1, Hr2. eexists. split; [exact Hr|]. split; [eauto|].
          cbn [F64.to_Q]. unfold F64.eps in *. split; lra. }
    destruct Hstep as (acc' & -> & Hfin & H1' & H2').
    destruct (IH acc' (a + v)%Q (S n)) as (Hr & Hr1 & Hr2).
    + right. exact Hfin.
    + unfold v. pose proof (scaled_pos mx ex). lra.
    + exact H1'.
    + exact H2'.
    + lra.
    + exact Hn.
    + split; [exact Hr|]. split; lra.
Qed.

Lemma n_present_pos cells : (∃ k, Some k ∈ cells) → (0 < n_present cells)%nat.
Proof.
  intros (k & Hk). unfold n_present.
  assert (Hin : k ∈ omap id cells) by (apply list_elem_of_omap; exists (Some k); auto).
  destruct (omap id cells); [inversion Hin|simpl; lia].
Qed.

(** ** The [float64] fractions of the plotted groups *)

Lemma elem_le_sum_list_with (s : list (string * nat)) l n :
  (l, n) ∈ s → (n ≤ sum_list_with snd s)%nat.
Proof.
  induction s as [|g s IH]; intros Hin; [inversion Hin|].
  apply elem_of_cons in Hin as [<-|Hin]; simpl; [lia|].
  specialize (IH Hin). lia.
Qed.

Lemma length_le_sum_list_with (s : list (string * nat)) :
  (∀ l n, (l, n) ∈ s → (0 < n)%nat) → (length s ≤ sum_list_with snd s)%nat.
Proof.
  induction s as [|[l n] s IH]; intros Hpos; simpl; [lia|].
  pose proof (Hpos l n (list_elem_of_here _ _)).
  assert (length s ≤ sum_list_with snd s)%nat; [|lia].
  apply IH. intros l' n' Hin. apply (Hpos l' n'), list_elem_of_further, Hin.
Qed.

(** Every fraction is a positive finite number, and the fractions, added
    exactly, are within [5 * eps] of the exact fractions, relatively. *)
Lemma float_fractions_error (total : nat) (s : list (string * nat)) :
  (1 <= Z.of_nat total < 2 ^ 63)%Z →
  (∀ l n, (l, n) ∈ s → (1 ≤ n ≤ total)%nat) →
  Forall summand (float_fractions total s)
  ∧ (sum_Q (F64.to_Q <$> float_fractions total s) - sum_exact_fractions total s
     <= (5 * F64.eps) * sum_exact_fractions total s)%Q
  ∧ (sum_exact_fractions total s - sum_Q (F64.to_Q <$> float_fractions total s)
     <= (5 * F64.eps) * sum_exact_fractions total s)%Q.
Proof.
  intros Htotal. induction s as [|[l n] s IH]; intros Hs.
  - split; [constructor|]. simpl. unfold F64.eps. split; lra.
  - destruct IH as (IH1 & IH2 & IH3).
    { intros l' n' Hin. apply (Hs l' n'), list_elem_of_further, Hin. }
    pose proof (Hs l n (list_elem_of_here _ _)) as Hn.
    destruct (float_fraction_error (Z.of_nat n) (Z.of_nat total) ltac:(lia) Htotal)
      as (m & e & Hr & H1 & H2).
    unfold float_fractions in *.
    cbn [fmap list_fmap sum_Q sum_exact_fractions foldr snd] in *.
    change (F64.div (F64.of_Z (Z.of_nat n)) (F64.of_Z (Z.of_nat total)))
      with (SFdiv F64.prec F64.emax
              (binary_normalize F64.prec F64.emax (Z.of_nat n) 0 false)
              (binary_normalize F64.prec F64.emax (Z.of_nat total) 0 false)).
    rewrite Hr. cbn [F64.to_Q].
    change (foldr Qplus 0%Q) with sum_Q.
    change (foldr (λ (g : string * nat) (acc : Q), (exact_fraction total g.2 + acc)%Q)
                  0%Q s)
      with (sum_exact_fractions total s).
    fold (exact_fraction total n) in H1, H2.
    set (y := exact_fraction total n) in *.
    assert (Hy : ((1 # 9223372036854775808) <= y)%Q).
    { subst y. unfold exact_fraction. apply Qle_shift_div_l.
      - change 0%Q with (inject_Z 0). rewrite <- Zlt_Qlt. lia.
      - assert (H63 : (inject_Z (Z.of_nat total) <= inject_Z (2 ^ 63))%Q)
          by (rewrite <- Zle_Qle; lia).
        assert (Hn1 : (inject_Z 1 <= inject_Z (Z.of_nat n))%Q)
          by (rewrite <- Zle_Qle; lia).
        change (inject_Z (2 ^ 63)) with (9223372036854775808 # 1)%Q in H63.
        change (inject_Z 1) with 1%Q in Hn1. lra. }
    unfold F64.eps in *. split; [|split; lra].
    constructor; [|exact IH1].
    exists m, e. split; [reflexivity|]. lra.
Qed.

Lemma length_float_fractions total s : length (float_fractions total s) = length s.
Proof. unfold float_fractions. apply length_fmap. Qed.

Lemma inject_nat_le (n : nat) (k : Z) :
  (Z.of_nat n <= k)%Z → (inject_Z (Z.of_nat n) <= inject_Z k)%Q.
Proof. intros H. rewrite <- Zle_Qle. exact H. Qed.

(** The fractions of groups that partition [total] rows. *)
Lemma float_fractions_sum (total : nat) (s : list (string * nat)) :
  (0 < total)%nat →
  (∀ l n, (l, n) ∈ s → (0 < n)%nat) →
  sum_list_with snd s = total →
  ((Z.of_nat total < 2 ^ 63)%Z →
   Forall summand (float_fractions total s)
   ∧ (Qabs (sum_Q (F64.to_Q <$> float_fractions total s) - 1) <= 5 * F64.eps)%Q)
  ∧ ((Z.of_nat total < 2 ^ 47)%Z →
     (∃ m e, float_sum (float_fractions total s) = S754_finite false m e)
     ∧ (Qabs (F64.to_Q (float_sum (float_fractions total s)) - 1)
        <= inject_Z (Z.of_nat (3 * length s + 5)) * F64.eps)%Q
     ∧ ((Z.of_nat (length s) <= 100000)%Z →
        (Qabs (F64.to_Q (float_sum (float_fractions total s)) - 1)
         <= 1 # 1000000000)%Q)).
Proof.
  intros Hpos Hs Hsum.
  assert (Hone : (sum_exact_fractions total s == 1)%Q).
  { rewrite sum_exact_fractions_eq by exact Hpos. rewrite Hsum.
    apply Qmult_inv_r. unfold Qeq. simpl. lia. }
  assert (Hbounds : ∀ l n, (l, n) ∈ s → (1 ≤ n ≤ total)%nat).
  { intros l n Hin. pose proof (Hs l n Hin).
    pose proof (elem_le_sum_list_with s l n Hin). lia. }
  assert (Hexact : (Z.of_nat total < 2 ^ 63)%Z →
            Forall summand (float_fractions total s)
            ∧ (sum_Q (F64.to_Q <$> float_fractions total s) - 1 <= 5 * F64.eps)%Q
            ∧ (1 - sum_Q (F64.to_Q <$> float_fractions total s) <= 5 * F64.eps)%Q).
  { intros Hlt.
    destruct (float_fractions_error total s ltac:(lia) Hbounds) as (H1 & H2 & H3).
    rewrite Hone in H2, H3. unfold F64.eps in *. split; [exact H1|]. split; lra. }
  split.
  - intros Hlt. destruct (Hexact Hlt) as (H1 & H2 & H3).
    split; [exact H1|]. apply Qabs_Qle_condition. unfold F64.eps in *. split; lra.
  - intros Hlt. destruct (Hexact ltac:(lia)) as (H1 & H2 & H3).
    pose proof (length_le_sum_list_with s Hs) as Hlen. rewrite Hsum in Hlen.
    pose proof (inject_nat_le (length s) (2 ^ 47) ltac:(lia)) as Hk.
    change (inject_Z (2 ^ 47)) with (140737488355328 # 1)%Q in Hk.
    pose proof (inject_nat_nonneg (length s)) as Hk0.
    destruct (fold_add_error (float_fractions total s) (S754_zero false) 0 0 H1)
      as (Hfin & Hs1 & Hs2).
    + left. reflexivity.
    + apply Qle_refl.
    + vm_compute. discriminate.
    + vm_compute. discriminate.
    + unfold F64.eps in *. lra.
    + cbn [Nat.add]. rewrite length_float_fractions. unfold F64.eps. lra.
    + fold (float_sum (float_fractions total s)) in Hfin, Hs1, Hs2.
      cbn [Nat.add] in Hs1, Hs2. rewrite length_float_fractions in Hs1, Hs2.
      assert (Hk' : (inject_Z (Z.of_nat (3 * length s + 5))
                     == 3 * inject_Z (Z.of_nat (length s)) + 5)%Q).
      { rewrite Nat2Z.inj_add, Nat2Z.inj_mul, inject_Z_plus, inject_Z_mult.
        reflexivity. }
      assert (Hclose : (F64.to_Q (float_sum (float_fractions total s)) - 1
                        <= inject_Z (Z.of_nat (3 * length s + 5)) * F64.eps)%Q
                       ∧ (1 - F64.to_Q (float_sum (float_fractions total s))
                          <= inject_Z (Z.of_nat (3 * length s + 5)) * F64.eps)%Q).
      { rewrite Hk'. unfold F64.eps in *. split; lra. }
      split; [|split].
      * destruct Hfin as [Hz|Hf]; [|exact Hf]. exfalso.
        rewrite Hz in Hs2. cbn [F64.to_Q] in Hs2. unfold F64.eps in *. lra.
      * apply Qabs_Qle_condition. destruct Hclose. split; lra.
      * intros Hsmall. apply Qabs_Qle_condition.
        pose proof (inject_nat_le (length s) 100000 ltac:(lia)) as Hk5.
        change (inject_Z 100000) with (100000 # 1)%Q in Hk5.
        destruct Hclose as [Hc1 Hc2]. rewrite Hk' in Hc1, Hc2.
        unfold F64.eps in *. split; lra.
Qed.

(** A group whose label is not [grouped_label] is one category, alone,
    that was not relabelled. *)
Lemma pie_series_unmerged threshold grouped_label cells l n :
  (l, n) ∈ pie_series threshold grouped_label (groupby_size cells) →
  l ≠ grouped_label →
  n = n_category cells l ∧ F64.ltb (fraction cells l) threshold = false.
Proof.
  intros Hin Hne. apply elem_of_pie_series in Hin as [-> Hpos].
  assert (Hkeep : F64.ltb (fraction cells l) threshold = false).
  { apply n_final_pos, elem_of_final_labels in Hpos as (k & _ & E).
    unfold final_label in E.
    destruct (F64.ltb (fraction cells k) threshold) eqn:Hk; [congruence|].
    subst k. exact Hk. }
  split; [|exact Hkeep].
  unfold n_final, n_category. f_equal. apply list_filter_iff.
  intros [k|]; simpl; [|split; discriminate].
  unfold final_label. split.
  - intros [= E]. destruct (F64.ltb (fraction cells k) threshold); congruence.
  - intros [= ->]. rewrite Hkeep. reflexivity.
Qed.

(** C3 (amended).  On a table whose category column has at least one
    present value, the grouper plots one series [out] such that: [out] is
    ascending by count; no label occurs twice; a label [l] is in [out] with
    count [n] exactly when [n] is the (positive) number of rows that end up
    under [l]; and a category ends up under [grouped_label] exactly when its
    count divided by the number of rows that have a category (rows with a
    missing category are left out of the denominator) is strictly less than
    [threshold] in binary64, and under its own name otherwise.  On the
    scenario A:50, B:45, C:3, D:2 with threshold 0.05 the series is
    Others 5, B 45, A 50. *)
Theorem grouper_relabels_and_sorts :
  (∀ (st : state CatFrame) column_name title threshold grouped_label
     x_label y_label font_size start_angle cells,
     getitem (table st) column_name = Some cells →
     column_name ≠ "sizes" → column_name ≠ "perc" →
     (∃ k, Some k ∈ cells) →
     ∃ out,
       create_pie_chart_with_grouped_threshold column_name title threshold
         grouped_label x_label y_label font_size start_angle st
       = (State (table st) (stdout st)
            (display st ++
             [PiePlot out title x_label y_label font_size start_angle]),
          inr ())
       ∧ Sorted count_le out
       ∧ NoDup (fst <$> out)
       ∧ (∀ l n, (l, n) ∈ out
                 ↔ n = n_final threshold grouped_label cells l ∧ (0 < n)%nat)
       ∧ (∀ k, final_label threshold grouped_label cells k
               = if F64.ltb (F64.div (F64.of_Z (Z.of_nat (n_category cells k)))
                                     (F64.of_Z (Z.of_nat (n_present cells))))
                            threshold
                 then grouped_label else k))
  ∧ create_pie_chart_with_grouped_threshold "category" "Categories"
      F64.lit_0_05 "Others" EmptyString EmptyString 14 90 scenario
    = (State (table scenario) []
         [PiePlot [("Others", 5%nat); ("B", 45%nat); ("A", 50%nat)]
                  "Categories" EmptyString EmptyString 14 90],
       inr ()).
Proof.
  split.
  - intros st column_name title threshold grouped_label x_label y_label
      font_size start_angle cells Hcol Hsizes _ Hsome.
    exists (pie_series threshold grouped_label (groupby_size cells)).
    split; [|split; [|split; [|split]]].
    + rewrite (create_pie_chart_runs _ _ _ _ _ _ _ _ _ _ Hcol Hsizes).
      rewrite (groupby_size_nonempty _ Hsome). reflexivity.
    + apply pie_series_Sorted.
    + apply pie_series_labels_NoDup.
    + intros l n. apply elem_of_pie_series.
    + intros k. reflexivity.
  - vm_compute. reflexivity.
Qed.

Lemma grouper_relabels_and_sorts_witness :
  ∃ out,
    create_pie_chart_with_grouped_threshold "category" "Categories"
      lit_0_5 "Others" EmptyString EmptyString 14 90 one_of_three
    = (State (table one_of_three) []
         [PiePlot out "Categories" EmptyString EmptyString 14 90], inr ())
    ∧ Sorted count_le out
    ∧ NoDup (fst <$> out)
    ∧ (∀ l n, (l, n) ∈ out
              ↔ n = n_final lit_0_5 "Others" [Some "A"; None; None] l ∧ (0 < n)%nat)
    ∧ (∀ k, final_label lit_0_5 "Others" [Some "A"; None; None] k
            = if F64.ltb (F64.div
                            (F64.of_Z (Z.of_nat (n_category [Some "A"; None; None] k)))
                            (F64.of_Z (Z.of_nat (n_present [Some "A"; None; None]))))
                         lit_0_5
              then "Others" else k).
Proof.
  apply (proj1 grouper_relabels_and_sorts one_of_three "category" "Categories"
           lit_0_5 "Others" EmptyString EmptyString 14 90 [Some "A"; None; None]).
  - reflexivity.
  - discriminate.
  - discriminate.
  - exists "A". apply list_elem_of_here.
Defined.

(** C3 as stated fails: in a table of three rows, one of category A and two
    with a missing category, the fraction of A in the total row count is
    below the threshold 0.5, and yet A is not relabelled: it is plotted under
    its own name, because the function divides by the one row that has a
    category. *)
Lemma grouper_fraction_of_total_rows_counterexample :
  F64.ltb (fraction_of_rows [Some "A"; None; None] "A") lit_0_5 = true
  ∧ create_pie_chart_with_grouped_threshold "category" "Categories"
      lit_0_5 "Others" EmptyString EmptyString 14 90 one_of_three
    = (State (table one_of_three) []
         [PiePlot [("A", 1%nat)] "Categories" EmptyString EmptyString 14 90], inr ())
  ∧ final_label lit_0_5 "Others" [Some "A"; None; None] "A" ≠ "Others".
Proof.
  split; [vm_compute; reflexivity|].
  split; [vm_compute; reflexivity|].
  vm_compute. discriminate.
Qed.

(** C5 (amended).  On a table whose category column has at least one
    present value, the counts of the plotted groups add up to the number of
    rows that have a category (rows with a missing category are in no
    group); every such row falls under exactly one plotted label; a group
    whose label is not [grouped_label] has a binary64 fraction that is not
    below [threshold]; and the fractions count/total of the groups, total
    being that number of rows, sum to 1.0 within floating-point tolerance:
    as exact quotients they add up to 1; as [float64] values, computed as
    line 35 computes them, they are positive finite numbers whose exact sum
    is within [5 * 2^-49] of 1 (for fewer than [2^63] rows, the range of
    the counts); and added in [float64] from left to right they give a
    finite number within [(3k + 5) * 2^-49] of 1.0 for [k] groups, which is
    below [1e-9] up to 100000 groups (for fewer than [2^47] rows). *)
Theorem grouper_partitions_present_rows (st : state CatFrame) column_name title
    threshold grouped_label x_label y_label font_size start_angle cells :
  getitem (table st) column_name = Some cells →
  column_name ≠ "sizes" → column_name ≠ "perc" →
  (∃ k, Some k ∈ cells) →
  ∃ out,
    display (fst (create_pie_chart_with_grouped_threshold column_name title
                    threshold grouped_label x_label y_label font_size
                    start_angle st))
    = (display st ++ [PiePlot out title x_label y_label font_size start_angle])%list
    ∧ sum_list_with snd out = n_present cells
    ∧ NoDup (fst <$> out)
    ∧ (∀ k, Some k ∈ cells →
            final_label threshold grouped_label cells k ∈ fst <$> out)
    ∧ Qeq (sum_exact_fractions (n_present cells) out) 1
    ∧ (∀ l n, (l, n) ∈ out → l ≠ grouped_label →
              F64.ltb (F64.div (F64.of_Z (Z.of_nat n))
                               (F64.of_Z (Z.of_nat (n_present cells))))
                      threshold = false)
    ∧ ((Z.of_nat (n_present cells) < 2 ^ 63)%Z →
       Forall (λ x, ∃ m e, x = S754_finite false m e)
              (float_fractions (n_present cells) out)
       ∧ (Qabs (sum_Q (F64.to_Q <$> float_fractions (n_present cells) out) - 1)
          <= 5 * F64.eps)%Q)
    ∧ ((Z.of_nat (n_present cells) < 2 ^ 47)%Z →
       (∃ m e, float_sum (float_fractions (n_present cells) out)
               = S754_finite false m e)
       ∧ (Qabs (F64.to_Q (float_sum (float_fractions (n_present cells) out)) - 1)
          <= inject_Z (Z.of_nat (3 * length out + 5)) * F64.eps)%Q
       ∧ ((Z.of_nat (length out) <= 100000)%Z →
          (Qabs (F64.to_Q (float_sum (float_fractions (n_present cells) out)) - 1)
           <= 1 # 1000000000)%Q)).
Proof.
  intros Hcol Hsizes _ Hsome.
  exists (pie_series threshold grouped_label (groupby_size cells)).
  destruct (float_fractions_sum (n_present cells)
              (pie_series threshold grouped_label (groupby_size cells)))
    as [Hexact Hfloat].
  { apply n_present_pos, Hsome. }
  { intros l n Hin. apply elem_of_pie_series in Hin as [_ Hn]. exact Hn. }
  { apply pie_series_total. }
  split; [|split; [|split; [|split; [|split; [|split; [|split]]]]]].
  - rewrite (create_pie_chart_runs _ _ _ _ _ _ _ _ _ _ Hcol Hsizes).
    rewrite (groupby_size_nonempty _ Hsome). reflexivity.
  - apply pie_series_total.
  - apply pie_series_labels_NoDup.
  - intros k Hk. apply list_elem_of_fmap.
    exists (final_label threshold grouped_label cells k,
            n_final threshold grouped_label cells
              (final_label threshold grouped_label cells k)).
    split; [reflexivity|]. apply elem_of_pie_series. split; [reflexivity|].
    apply n_final_pos, elem_of_final_labels. exists k. auto.
  - rewrite sum_exact_fractions_eq by (apply n_present_pos, Hsome).
    rewrite pie_series_total. apply Qmult_inv_r.
    pose proof (n_present_pos cells Hsome). unfold Qeq. simpl. lia.
  - intros l n Hin Hne.
    destruct (pie_series_unmerged _ _ _ _ _ Hin Hne) as [-> Hkeep].
    exact Hkeep.
  - intros Hlt. destruct (Hexact Hlt) as [Hall Hsum]. split; [|exact Hsum].
    eapply Forall_impl; [exact Hall|]. intros x (m & e & Hx & _). eauto.
  - exact Hfloat.
Qed.

Lemma grouper_partitions_present_rows_witness :
  ∃ out,
    display (fst (create_pie_chart_with_grouped_threshold "category" "Categories"
                    F64.lit_0_05 "Others" EmptyString EmptyString 14 90 scenario))
    = (display scenario ++ [PiePlot out "Categories" EmptyString EmptyString 14 90])%list
    ∧ sum_list_with snd out = n_present scenario_cells
    ∧ NoDup (fst <$> out)
    ∧ (∀ k, Some k ∈ scenario_cells →
            final_label F64.lit_0_05 "Others" scenario_cells k ∈ fst <$> out)
    ∧ Qeq (sum_exact_fractions (n_present scenario_cells) out) 1
    ∧ (∀ l n, (l, n) ∈ out → l ≠ "Others" →
              F64.ltb (F64.div (F64.of_Z (Z.of_nat n))
                               (F64.of_Z (Z.of_nat (n_present scenario_cells))))
                      F64.lit_0_05 = false)
    ∧ (Forall (λ x, ∃ m e, x = S754_finite false m e)
              (float_fractions (n_present scenario_cells) out)
       ∧ (Qabs (sum_Q (F64.to_Q <$> float_fractions (n_present scenario_cells) out)
                - 1)
          <= 5 * F64.eps)%Q)
    ∧ ((∃ m e, float_sum (float_fractions (n_present scenario_cells) out)
               = S754_finite false m e)
       ∧ (Qabs (F64.to_Q (float_sum (float_fractions (n_present scenario_cells) out))
                - 1)
          <= inject_Z (Z.of_nat (3 * length out + 5)) * F64.eps)%Q
       ∧ (Qabs (F64.to_Q (float_sum (float_fractions (n_present scenario_cells) out))
                - 1)
          <= 1 # 1000000000)%Q).
Proof.
  destruct (grouper_partitions_present_rows scenario "category" "Categories"
              F64.lit_0_05 "Others" EmptyString EmptyString 14 90 scenario_cells)
    as (out & Hd & Hsum & Hnd & Hlab & Hq & Hthr & Hexact & Hfloat).
  - reflexivity.
  - discriminate.
  - discriminate.
  - exists "A". apply list_elem_of_here.
  - assert (Hout : out = [("Others", 5%nat); ("B", 45%nat); ("A", 50%nat)]).
    { vm_compute in Hd. injection Hd as <-. reflexivity. }
    exists out. repeat (split; [assumption|]). split.
    + apply Hexact. vm_compute. reflexivity.
    + destruct Hfloat as (Hfin & Hbound & Hsmall); [vm_compute; reflexivity|].
      split; [exact Hfin|]. split; [exact Hbound|].
      apply Hsmall. rewrite Hout. vm_compute. discriminate.
Defined.

(** On the scenario A:50, B:45, C:3, D:2 with threshold 0.05 the three
    [float64] fractions 0.05, 0.45 and 0.5 add up, in [float64], to 1.0
    itself. *)
Example float_sum_scenario :
  float_sum (float_fractions 100 [("Others", 5%nat); ("B", 45%nat); ("A", 50%nat)])
  = F64.one.
Proof. vm_compute. reflexivity. Qed.

(** C5 as stated fails: a table of two rows, one of category A and one with a
    missing category, is not empty, and the counts of the plotted groups add
    up to 1, not to the 2 rows of the table: the second row is in no
    group. *)
Lemma grouper_partition_counterexample :
  length [Some "A"; None] = 2%nat
  ∧ create_pie_chart_with_grouped_threshold "category" "Categories"
      F64.lit_0_05 "Others" EmptyString EmptyString 14 90 one_of_two
    = (State (table one_of_two) []
         [PiePlot [("A", 1%nat)] "Categories" EmptyString EmptyString 14 90], inr ())
  ∧ sum_list_with snd [("A", 1%nat)] ≠ length [Some "A"; None].
Proof.
  split; [reflexivity|]. split; [vm_compute; reflexivity|].
  vm_compute. discriminate.
Qed.



(** C10.  The branch is decided by the grouped result: the grouper removes
    the plot target exactly when no row has a category.  In particular, on a
    table that has rows but whose category column holds only missing
    values, it returns normally, plots nothing and removes the plot
    target. *)
Theorem grouper_all_missing (st : state CatFrame) column_name title threshold
    grouped_label x_label y_label font_size start_angle cells :
  getitem (table st) column_name = Some cells →
  let run := create_pie_chart_with_grouped_threshold column_name title
               threshold grouped_label x_label y_label font_size start_angle st in
  (run = (State (table st) (stdout st) (display st ++ [AxRemove]), inr ())
   ↔ groupby_size cells = [])
  ∧ (groupby_size cells = [] ↔ ∀ c, c ∈ cells → c = None)
  ∧ (cells ≠ [] → (∀ c, c ∈ cells → c = None) →
     run = (State (table st) (stdout st) (display st ++ [AxRemove]), inr ())).
Proof.
  intros Hcol run.
  assert (Hrun : groupby_size cells = [] →
                 run = (State (table st) (stdout st) (display st ++ [AxRemove]), inr ())).
  { intros E. subst run.
    apply (create_pie_chart_runs_empty _ _ _ _ _ _ _ _ _ _ Hcol E). }
  split; [split; [|exact Hrun]|split].
  - destruct (decide (groupby_size cells = [])) as [E|E]; [auto|].
    subst run. destruct (decide (column_name = "sizes")) as [->|Hsizes].
    + rewrite (create_pie_chart_runs_sizes _ _ _ _ _ _ _ _ _ Hcol E).
      discriminate.
    + rewrite (create_pie_chart_runs _ _ _ _ _ _ _ _ _ _ Hcol Hsizes).
      rewrite (bool_decide_eq_true_2 _ E). intros [= Hd].
      apply app_inv_head in Hd. discriminate.
  - apply groupby_size_nil.
  - intros _ Hall. apply Hrun, groupby_size_nil, Hall.
Qed.

Lemma grouper_all_missing_witness :
  create_pie_chart_with_grouped_threshold "category" "Categories"
    F64.lit_0_05 "Others" EmptyString EmptyString 14 90 all_missing
  = (State (table all_missing) (stdout all_missing)
       (display all_missing ++ [AxRemove]), inr ()).
Proof.
  apply (grouper_all_missing all_missing "category" "Categories" F64.lit_0_05
           "Others" EmptyString EmptyString 14 90 [None; None] eq_refl).
  - discriminate.
  - intros c Hc. apply elem_of_cons in Hc as [->|Hc]; [reflexivity|].
    apply elem_of_cons in Hc as [->|Hc]; [reflexivity|]. inversion Hc.
Defined.

(** ** The caller's table *)

Lemma getitem_setitem_eq {C} (df : Frame C) name c :
  getitem (setitem df name c) name = Some c.
Proof.
  induction df as [|[n c0] df IH]; simpl.
  - destruct (decide (name = name)); [reflexivity|contradiction].
  - destruct (decide (n = name)) as [E|E]; simpl.
    + rewrite decide_True by exact E. reflexivity.
    + rewrite decide_False by exact E. exact IH.
Qed.

Lemma getitem_setitem_ne {C} (df : Frame C) name c other :
  name ≠ other → getitem (setitem df name c) other = getitem df other.
Proof.
  intros Hne. induction df as [|[n c0] df IH]; simpl.
  - rewrite decide_False by exact Hne. reflexivity.
  - destruct (decide (n = name)) as [E|E]; simpl.
    + subst n. rewrite !decide_False by exact Hne. reflexivity.
    + destruct (decide (n = other)); [reflexivity|exact IH].
Qed.

Global Instance same_outside_refl {C} names : Reflexive (@same_outside C names).
Proof. intros df n _. reflexivity. Qed.

Global Instance same_outside_trans {C} names : Transitive (@same_outside C names).
Proof. intros a b c Hab Hbc n Hn. rewrite (Hbc n Hn). apply Hab, Hn. Qed.

Section Keeps.
Context {T : Type} (R : T → T → Prop) `{!Reflexive R, !Transitive R}.

Lemma keeps_ret {A} (a : A) : keeps R (@ret T A a).
Proof. intros s. reflexivity. Qed.

Lemma keeps_raise {A} (e : exn) : keeps R (@raise T A e).
Proof. intros s. reflexivity. Qed.

Lemma keeps_lift {A} (r : exn + A) : keeps R (@lift T A r).
Proof. intros s. reflexivity. Qed.

Lemma keeps_print (line : string) : keeps R (@print T line).
Proof. intros s. reflexivity. Qed.

Lemma keeps_draw (r : render) : keeps R (@draw T r).
Proof. intros s. reflexivity. Qed.

Lemma keeps_get_table : keeps R (@get_table T).
Proof. intros s. reflexivity. Qed.

Lemma keeps_bind {A B} (m : M T A) (k : A → M T B) :
  keeps R m → (∀ a, keeps R (k a)) → keeps R (bind m k).
Proof.
  intros Hm Hk s. unfold bind. specialize (Hm s).
  destruct (m s) as [s' [e|a]]; simpl in *; [exact Hm|].
  etransitivity; [exact Hm|apply Hk].
Qed.

Lemma keeps_except_KeyError {A} (m h : M T A) :
  keeps R m → keeps R h → keeps R (except_KeyError m h).
Proof.
  intros Hm Hh s. unfold except_KeyError. specialize (Hm s).
  destruct (m s) as [s' [[]|a]]; simpl in *; try exact Hm.
  etransitivity; [exact Hm|apply Hh].
Qed.

Lemma keeps_for_each {A} (xs : list A) (body : A → M T unit) :
  (∀ x, keeps R (body x)) → keeps R (for_each xs body).
Proof.
  intros Hbody. induction xs as [|x xs IH]; simpl.
  - apply keeps_ret.
  - apply keeps_bind; auto.
Qed.

Lemma keeps_series_getitem_int (s : Series) (i : nat) :
  keeps R (@series_getitem_int T s i).
Proof.
  unfold series_getitem_int. destruct (s !! i) as [[]|];
    [apply keeps_ret|apply keeps_raise].
Qed.

End Keeps.

Lemma keeps_df_getitem {C} (R : Frame C → Frame C → Prop) `{!Reflexive R}
    (name : string) : keeps R (@df_getitem C name).
Proof. intros s. rewrite df_getitem_run. reflexivity. Qed.

Lemma keeps_df_setitem {C} (names : list string) (name : string) (c : C) :
  name ∈ names → keeps (same_outside names) (df_setitem name c).
Proof.
  intros Hin s n Hn. simpl. apply getitem_setitem_ne. intros ->. contradiction.
Qed.

Create HintDb keeps discriminated.
#[export] Hint Resolve keeps_ret keeps_raise keeps_lift keeps_print keeps_draw
  keeps_get_table keeps_for_each keeps_series_getitem_int keeps_df_getitem
  keeps_except_KeyError : keeps.

Ltac keeps_steps :=
  repeat match goal with
  | |- keeps _ (bind _ _) => apply keeps_bind; [typeclasses eauto| |intros ?]
  | |- keeps _ (if ?b then _ else _) => destruct b
  | |- keeps _ (match ?x with _ => _ end) => destruct x
  | |- keeps _ _ => solve [eauto with keeps typeclass_instances]
  end.

Lemma keeps_run_adfuller_test adfuller repr_float auto_lag :
  keeps eq (run_adfuller_test adfuller repr_float auto_lag).
Proof.
  unfold run_adfuller_test. keeps_steps.
Qed.

Lemma keeps_run_kpss_test kpss repr_series regression :
  keeps eq (run_kpss_test kpss repr_series regression).
Proof. unfold run_kpss_test. keeps_steps. Qed.

Lemma keeps_create_pie_chart column_name title threshold grouped_label
    x_label y_label font_size start_angle :
  keeps eq (create_pie_chart_with_grouped_threshold column_name title threshold
              grouped_label x_label y_label font_size start_angle).
Proof. unfold create_pie_chart_with_grouped_threshold. keeps_steps. Qed.

Lemma keeps_plot_correlation_heat_map corr title color_map fig_size method :
  keeps eq (plot_correlation_heat_map corr title color_map fig_size method).
Proof. unfold plot_correlation_heat_map. keeps_steps. Qed.

Lemma keeps_plot_acf_pacf plot_acf plot_pacf lags fig_size :
  keeps eq (plot_acf_pacf plot_acf plot_pacf lags fig_size).
Proof. unfold plot_acf_pacf. keeps_steps. Qed.

(** ** [plot_measuring_points] *)

Lemma coordinate_run fos cc i (s : state (Frame column)) :
  coordinate fos cc i s
  = (s, match getitem (table s) cc with
        | None => inl (KeyError cc)
        | Some c =>
            match str_accessor c with
            | inl e => inl e
            | inr cells => astype_float fos (str_split_get "," i cells)
            end
        end).
Proof.
  unfold coordinate, bind. rewrite df_getitem_run.
  destruct (getitem (table s) cc) as [c|]; [|reflexivity].
  unfold lift. destruct (str_accessor c); reflexivity.
Qed.

Lemma measuring_point_ids_run (s : state (Frame column)) :
  measuring_point_ids s
  = (s, match getitem (table s) "id" with
        | Some c => inr c
        | None =>
            match getitem (table s) "measuring_point_id" with
            | Some c => inr c
            | None => inl (KeyError "measuring_point_id")
            end
        end).
Proof.
  unfold measuring_point_ids, except_KeyError. rewrite !df_getitem_run.
  destruct (getitem (table s) "id"); reflexivity.
Qed.

Lemma keeps_coordinate (R : Frame column → Frame column → Prop) `{!Reflexive R}
    fos cc i : keeps R (coordinate fos cc i).
Proof. intros s. rewrite coordinate_run. reflexivity. Qed.

Lemma keeps_measuring_point_ids (R : Frame column → Frame column → Prop)
    `{!Reflexive R} : keeps R measuring_point_ids.
Proof. intros s. rewrite measuring_point_ids_run. reflexivity. Qed.

Lemma keeps_scatter_mapbox (R : Frame column → Frame column → Prop)
    `{!Reflexive R} lat lon color hover_name :
  keeps R (scatter_mapbox lat lon color hover_name).
Proof.
  intros s. unfold scatter_mapbox, bind, get_table.
  destruct (bool_decide _); reflexivity.
Qed.

#[export] Hint Resolve keeps_coordinate keeps_measuring_point_ids
  keeps_scatter_mapbox : keeps.

Lemma keeps_plot_measuring_points fos coordinates_column color_column :
  keeps (same_outside ["lat"; "lon"; "text"])
        (plot_measuring_points fos coordinates_column color_column).
Proof.
  unfold plot_measuring_points.
  repeat first
    [ solve [eauto with keeps typeclass_instances]
    | apply keeps_df_setitem; repeat constructor
    | apply keeps_bind; [typeclasses eauto| |intros ?] ].
Qed.

(** The state [plot_measuring_points] reaches when it returns normally. *)
Lemma plot_measuring_points_returns fos cc color (st : state (Frame column)) :
  snd (plot_measuring_points fos cc color st) = inr () →
  ∃ lat lon text,
    table (fst (plot_measuring_points fos cc color st))
    = setitem (setitem (setitem (table st) "lat" (FloatCol lat))
                       "lon" (FloatCol lon))
              "text" (ObjCol text).
Proof.
  remember (plot_measuring_points fos cc color st) as run eqn:E.
  unfold plot_measuring_points, bind in E. rewrite coordinate_run in E.
  destruct (match getitem (table st) cc with None => _ | Some _ => _ end)
    as [e|lat]; [subst run; discriminate|].
  cbn [df_setitem bind get_table put_table table stdout display] in E.
  rewrite coordinate_run in E. cbn [table] in E.
  destruct (match getitem (setitem (table st) "lat" (FloatCol lat)) cc
            with None => _ | Some _ => _ end) as [e|lon]; [subst run; discriminate|].
  cbn [df_setitem bind get_table put_table table stdout display] in E.
  rewrite measuring_point_ids_run in E. cbn [table] in E.
  destruct (match getitem _ "id" with None => _ | Some _ => _ end)
    as [e|ids]; [subst run; discriminate|].
  unfold lift in E. destruct (add_str ids " : ") as [e|left]; [subst run; discriminate|].
  rewrite df_getitem_run in E. cbn [table] in E.
  destruct (getitem _ "description") as [description|]; [|subst run; discriminate].
  destruct (add_col left description) as [e|text]; [subst run; discriminate|].
  cbn [df_setitem bind get_table put_table table stdout display] in E.
  intros _. exists lat, lon, text. subst run.
  unfold scatter_mapbox, bind, get_table. cbn [table].
  match goal with
  | |- context [bool_decide ?P] => destruct (bool_decide P); reflexivity
  end.
Qed.

(** The first four statements of [plot_measuring_points] on well-formed
    coordinates: what remains runs on the table with [lat] and [lon]. *)
Ltac run_coordinates Hok E :=
  let cells := fresh "cells" in
  let Hne := fresh "Hne" in
  let Hcc := fresh "Hcc" in
  let Hlat := fresh "Hlat" in
  let Hlon := fresh "Hlon" in
  destruct Hok as (Hne & cells & Hcc & Hlat & Hlon);
  unfold plot_measuring_points, bind in E;
  rewrite coordinate_run, Hcc in E; cbn [str_accessor] in E;
  rewrite Hlat in E;
  cbn [df_setitem bind get_table put_table table stdout display] in E;
  rewrite coordinate_run in E; cbn [table] in E;
  rewrite (getitem_setitem_ne _ "lat" _ _ (not_eq_sym Hne)), Hcc in E;
  cbn [str_accessor] in E; rewrite Hlon in E;
  cbn [df_setitem bind get_table put_table table stdout display] in E;
  rewrite measuring_point_ids_run in E; cbn [table] in E;
  rewrite !(getitem_setitem_ne _ "lon" _ "id") in E by discriminate;
  rewrite !(getitem_setitem_ne _ "lat" _ "id") in E by discriminate;
  rewrite !(getitem_setitem_ne _ "lon" _ "measuring_point_id") in E by discriminate;
  rewrite !(getitem_setitem_ne _ "lat" _ "measuring_point_id") in E by discriminate.

Lemma plot_measuring_points_no_ids fos cc color (st : state (Frame column)) :
  getitem (table st) "id" = None →
  getitem (table st) "measuring_point_id" = None →
  ∃ e, snd (plot_measuring_points fos cc color st) = inl e
       ∧ display (fst (plot_measuring_points fos cc color st)) = display st
       ∧ getitem (table (fst (plot_measuring_points fos cc color st))) "text"
         = getitem (table st) "text".
Proof.
  intros Hid Hmp.
  remember (plot_measuring_points fos cc color st) as run eqn:E.
  unfold plot_measuring_points, bind in E. rewrite coordinate_run in E.
  destruct (match getitem (table st) cc with None => _ | Some _ => _ end)
    as [e|lat]; [subst run; eexists; simpl; eauto|].
  cbn [df_setitem bind get_table put_table table stdout display] in E.
  rewrite coordinate_run in E. cbn [table] in E.
  destruct (match getitem (setitem (table st) "lat" (FloatCol lat)) cc
            with None => _ | Some _ => _ end) as [e|lon].
  { subst run. eexists. simpl. repeat split; eauto.
    apply getitem_setitem_ne. discriminate. }
  cbn [df_setitem bind get_table put_table table stdout display] in E.
  rewrite measuring_point_ids_run in E. cbn [table] in E.
  rewrite !(getitem_setitem_ne _ "lon" _ "id") in E by discriminate.
  rewrite !(getitem_setitem_ne _ "lat" _ "id") in E by discriminate.
  rewrite !(getitem_setitem_ne _ "lon" _ "measuring_point_id") in E by discriminate.
  rewrite !(getitem_setitem_ne _ "lat" _ "measuring_point_id") in E by discriminate.
  rewrite Hid, Hmp in E. subst run. eexists. simpl. repeat split; eauto.
  rewrite !getitem_setitem_ne by discriminate. reflexivity.
Qed.

Lemma plot_measuring_points_KeyError fos cc color (st : state (Frame column))
    lat lon :
  getitem (table st) "id" = None →
  getitem (table st) "measuring_point_id" = None →
  coordinates_ok fos (table st) cc lat lon →
  snd (plot_measuring_points fos cc color st)
  = inl (KeyError "measuring_point_id").
Proof.
  intros Hid Hmp Hok.
  remember (plot_measuring_points fos cc color st) as run eqn:E.
  run_coordinates Hok E. rewrite Hid, Hmp in E. subst run. reflexivity.
Qed.

Lemma plot_measuring_points_uses_fallback fos cc color
    (st : state (Frame column)) lat lon ids left description text :
  getitem (table st) "id" = None →
  getitem (table st) "measuring_point_id" = Some ids →
  coordinates_ok fos (table st) cc lat lon →
  add_str ids " : " = inr left →
  getitem (table st) "description" = Some description →
  add_col left description = inr text →
  getitem (table (fst (plot_measuring_points fos cc color st))) "text"
  = Some (ObjCol text)
  ∧ (color = None → snd (plot_measuring_points fos cc color st) = inr ()).
Proof.
  intros Hid Hmp Hok Hleft Hdesc Htext.
  remember (plot_measuring_points fos cc color st) as run eqn:E.
  run_coordinates Hok E. rewrite Hid, Hmp in E.
  unfold lift in E. rewrite Hleft in E.
  rewrite df_getitem_run in E. cbn [table] in E.
  rewrite !(getitem_setitem_ne _ _ _ "description") in E by discriminate.
  rewrite Hdesc, Htext in E.
  cbn [df_setitem bind get_table put_table table stdout display] in E.
  unfold scatter_mapbox, bind, get_table in E. cbn [table] in E.
  split.
  - subst run.
    match goal with
    | |- context [bool_decide ?P] => destruct (bool_decide P)
    end; simpl; apply getitem_setitem_eq.
  - intros ->. subst run. rewrite bool_decide_eq_true_2; [reflexivity|].
    simpl. repeat constructor.
    + rewrite !getitem_setitem_ne by discriminate.
      rewrite getitem_setitem_eq. eauto.
    + rewrite !getitem_setitem_ne by discriminate.
      rewrite getitem_setitem_eq. eauto.
    + rewrite getitem_setitem_eq. eauto.
Qed.

(** C7 (amended).  When the table has neither an [id] nor a
    [measuring_point_id] column, [plot_measuring_points] raises: it never
    returns, draws nothing and writes no [text] (hover label) column,
    whatever else the table holds; when moreover the coordinates column is
    a column of strings, not called [lat], whose two pieces convert to
    numbers, the exception is [KeyError('measuring_point_id')], which names
    the missing column (otherwise the conversion of lines 76-77 raises
    first).  When [id] is absent and [measuring_point_id] is present, the
    hover label is built from [measuring_point_id]. *)
Theorem plot_measuring_points_identifier_columns :
  (∀ fos cc color (st : state (Frame column)),
     getitem (table st) "id" = None →
     getitem (table st) "measuring_point_id" = None →
     ∃ e, snd (plot_measuring_points fos cc color st) = inl e
          ∧ display (fst (plot_measuring_points fos cc color st)) = display st
          ∧ getitem (table (fst (plot_measuring_points fos cc color st))) "text"
            = getitem (table st) "text")
  ∧ (∀ fos cc color (st : state (Frame column)) lat lon,
       getitem (table st) "id" = None →
       getitem (table st) "measuring_point_id" = None →
       coordinates_ok fos (table st) cc lat lon →
       snd (plot_measuring_points fos cc color st)
       = inl (KeyError "measuring_point_id"))
  ∧ (∀ fos cc color (st : state (Frame column)) lat lon ids left description text,
       getitem (table st) "id" = None →
       getitem (table st) "measuring_point_id" = Some ids →
       coordinates_ok fos (table st) cc lat lon →
       add_str ids " : " = inr left →
       getitem (table st) "description" = Some description →
       add_col left description = inr text →
       getitem (table (fst (plot_measuring_points fos cc color st))) "text"
       = Some (ObjCol text)
       ∧ (color = None → snd (plot_measuring_points fos cc color st) = inr ())).
Proof.
  split; [|split].
  - intros. apply plot_measuring_points_no_ids; assumption.
  - intros. eapply plot_measuring_points_KeyError; eassumption.
  - intros. eapply plot_measuring_points_uses_fallback; eassumption.
Qed.

Lemma coordinates_ok_one_point (df : Frame column) :
  getitem df "coordinates" = Some (ObjCol [Some "41.4,2.07"]) →
  coordinates_ok decimal_literal df "coordinates"
    [S754_finite false 5826532017910579 (-47)]
    [S754_finite false 4661225614328463 (-51)].
Proof.
  intros H. split; [discriminate|]. exists [Some "41.4,2.07"].
  split; [exact H|]. split; vm_compute; reflexivity.
Defined.

Lemma plot_measuring_points_identifier_columns_witness :
  (∃ e, snd (plot_measuring_points decimal_literal "coordinates" None
               one_point_anonymous) = inl e
        ∧ display (fst (plot_measuring_points decimal_literal "coordinates" None
                          one_point_anonymous)) = display one_point_anonymous
        ∧ getitem (table (fst (plot_measuring_points decimal_literal
                                 "coordinates" None one_point_anonymous))) "text"
          = getitem (table one_point_anonymous) "text")
  ∧ snd (plot_measuring_points decimal_literal "coordinates" None
           one_point_anonymous)
    = inl (KeyError "measuring_point_id")
  ∧ getitem (table (fst (plot_measuring_points decimal_literal "coordinates" None
                           one_point_fallback))) "text"
    = Some (ObjCol [Some "p1 : gate"]).
Proof.
  destruct plot_measuring_points_identifier_columns as (H1 & H2 & H3).
  split; [|split].
  - apply H1; reflexivity.
  - apply (H2 decimal_literal "coordinates" None one_point_anonymous _ _
             eq_refl eq_refl
             (coordinates_ok_one_point (table one_point_anonymous) eq_refl)).
  - apply (H3 decimal_literal "coordinates" None one_point_fallback _ _
             (ObjCol [Some "p1"]) [Some "p1 : "] (ObjCol [Some "gate"])
             [Some "p1 : gate"]
             eq_refl eq_refl
             (coordinates_ok_one_point (table one_point_fallback) eq_refl)
             eq_refl eq_refl eq_refl).
Defined.

(** C7 as stated fails: on a table with neither identifier column whose
    latitude is not a number, the call fails at line 76, before it looks
    for an identifier, with a [ValueError] that names no column. *)
Lemma plot_measuring_points_missing_ids_counterexample :
  getitem (table bad_latitude_anonymous) "id" = None
  ∧ getitem (table bad_latitude_anonymous) "measuring_point_id" = None
  ∧ plot_measuring_points decimal_literal "coordinates" None
      bad_latitude_anonymous
    = (bad_latitude_anonymous, inl ValueError)
  ∧ ValueError ≠ KeyError "measuring_point_id"
  ∧ ValueError ≠ KeyError "id".
Proof.
  split; [reflexivity|]. split; [reflexivity|].
  split; [vm_compute; reflexivity|]. split; discriminate.
Qed.

(** C8 (amended).  [run_adfuller_test], [run_kpss_test], the threshold
    grouper, [plot_correlation_heat_map] and [plot_acf_pacf] leave the
    caller's table as it was, whether they return or raise.
    [plot_measuring_points] leaves every column other than [lat], [lon] and
    [text] as it was, and when it returns the caller's table is the table
    it received with the columns [lat], [lon] and [text] assigned. *)
Theorem callers_table_after_the_call :
  (∀ adfuller repr_float auto_lag (st : state NumFrame),
     table (fst (run_adfuller_test adfuller repr_float auto_lag st)) = table st)
  ∧ (∀ kpss repr_series regression (st : state NumFrame),
       table (fst (run_kpss_test kpss repr_series regression st)) = table st)
  ∧ (∀ column_name title threshold grouped_label x_label y_label font_size
       start_angle (st : state CatFrame),
       table (fst (create_pie_chart_with_grouped_threshold column_name title
                     threshold grouped_label x_label y_label font_size
                     start_angle st)) = table st)
  ∧ (∀ corr title color_map fig_size method (st : state (Frame column)),
       table (fst (plot_correlation_heat_map corr title color_map fig_size
                     method st)) = table st)
  ∧ (∀ plot_acf plot_pacf lags fig_size (st : state NumFrame),
       table (fst (plot_acf_pacf plot_acf plot_pacf lags fig_size st)) = table st)
  ∧ (∀ fos cc color (st : state (Frame column)) name,
       name ∉ ["lat"; "lon"; "text"] →
       getitem (table (fst (plot_measuring_points fos cc color st))) name
       = getitem (table st) name)
  ∧ (∀ fos cc color (st : state (Frame column)),
       snd (plot_measuring_points fos cc color st) = inr () →
       ∃ lat lon text,
         table (fst (plot_measuring_points fos cc color st))
         = setitem (setitem (setitem (table st) "lat" (FloatCol lat))
                            "lon" (FloatCol lon))
                   "text" (ObjCol text)).
Proof.
  split; [|split; [|split; [|split; [|split; [|split]]]]].
  - intros. symmetry. apply keeps_run_adfuller_test.
  - intros. symmetry. apply keeps_run_kpss_test.
  - intros. symmetry. apply keeps_create_pie_chart.
  - intros. symmetry. apply keeps_plot_correlation_heat_map.
  - intros. symmetry. apply keeps_plot_acf_pacf.
  - intros fos cc color st name Hname.
    apply (keeps_plot_measuring_points fos cc color st name Hname).
  - intros fos cc color st. apply plot_measuring_points_returns.
Qed.

Lemma callers_table_after_the_call_witness :
  getitem (table (fst (plot_measuring_points decimal_literal "coordinates" None
                         one_point))) "description"
  = getitem (table one_point) "description"
  ∧ ∃ lat lon text,
      table (fst (plot_measuring_points decimal_literal "coordinates" None one_point))
      = setitem (setitem (setitem (table one_point) "lat" (FloatCol lat))
                         "lon" (FloatCol lon))
                "text" (ObjCol text).
Proof.
  destruct callers_table_after_the_call as (_ & _ & _ & _ & _ & H6 & H7).
  split.
  - apply H6. intros Hin.
    repeat (apply elem_of_cons in Hin as [Hin|Hin]; [discriminate Hin|]).
    inversion Hin.
  - apply H7. vm_compute. reflexivity.
Defined.

(** C8 as stated fails: [plot_measuring_points] returns normally on a
    one-row table with columns [coordinates], [id] and [description], and
    the caller's table has three more columns after the call. *)
Lemma plot_measuring_points_mutates_counterexample :
  snd (plot_measuring_points decimal_literal "coordinates" None one_point) = inr ()
  ∧ table (fst (plot_measuring_points decimal_literal "coordinates" None one_point))
    = (table one_point
       ++ [("lat", FloatCol [S754_finite false 5826532017910579 (-47)]);
           ("lon", FloatCol [S754_finite false 4661225614328463 (-51)]);
           ("text", ObjCol [Some "p1 : gate"])])%list
  ∧ table (fst (plot_measuring_points decimal_literal "coordinates" None one_point))
    ≠ table one_point.
Proof.
  split; [vm_compute; reflexivity|]. split; [vm_compute; reflexivity|].
  vm_compute. discriminate.
Qed.

(** ** The heat-map mask *)

Lemma entry_triu_ones {A} (m : matrix A) (i j : nat) (row : list A) :
  m !! i = Some row → (j < length row)%nat →
  entry (triu false (ones_like_bool m)) i j = Some (bool_decide (i ≤ j)%nat).
Proof.
  intros Hrow Hj. unfold entry, triu, ones_like_bool.
  rewrite list_lookup_imap, list_lookup_fmap, Hrow. simpl.
  rewrite list_lookup_imap, list_lookup_fmap.
  destruct (lookup_lt_is_Some_2 row j Hj) as [x ->]. simpl.
  destruct (decide (i ≤ j)%nat) as [H|H].
  - rewrite bool_decide_eq_true_2 by exact H. reflexivity.
  - rewrite bool_decide_eq_false_2 by exact H. reflexivity.
Qed.

Lemma triu_ones_shape {A} (m : matrix A) :
  length <$> triu false (ones_like_bool m) = length <$> m.
Proof.
  unfold triu, ones_like_bool. apply list_eq. intros i.
  rewrite !list_lookup_fmap, list_lookup_imap, list_lookup_fmap.
  destruct (m !! i) as [row|]; simpl; [|reflexivity].
  rewrite length_imap, length_fmap. reflexivity.
Qed.

(** C9.  When the correlation routine answers, the heat map is drawn with a
    mask of booleans that has the shape of the correlation matrix and whose
    entry at row [i], column [j] is [True] exactly when [i <= j]: the upper
    triangle, diagonal included. *)
Theorem heat_map_mask_is_boolean_upper_triangle corr title color_map fig_size
    method (st : state (Frame column)) shape c :
  corr (table st) "pearson" = inr shape →
  corr (table st) method = inr c →
  ∃ mask : matrix bool,
    plot_correlation_heat_map corr title color_map fig_size method st
    = (State (table st) (stdout st)
         (display st ++ [PltFigure fig_size; Heatmap c mask color_map title]),
       inr ())
    ∧ length <$> mask = length <$> shape
    ∧ ∀ i j row, shape !! i = Some row → (j < length row)%nat →
                 entry mask i j = Some (bool_decide (i ≤ j)%nat).
Proof.
  intros Hshape Hc. exists (triu false (ones_like_bool shape)).
  split; [|split].
  - unfold plot_correlation_heat_map. run_prefix. rewrite Hshape. run_prefix.
    rewrite Hc. unfold draw. cbn [table stdout display].
    rewrite <- app_assoc. reflexivity.
  - apply triu_ones_shape.
  - intros i j row. apply entry_triu_ones.
Qed.

Lemma heat_map_mask_is_boolean_upper_triangle_witness :
  ∃ mask : matrix bool,
    plot_correlation_heat_map (answer_corr corr_2x2) "Correlation" "BrBG" (25, 25)
      "pearson" two_columns
    = (State (table two_columns) (stdout two_columns)
         (display two_columns
          ++ [PltFigure (25, 25); Heatmap corr_2x2 mask "BrBG" "Correlation"]),
       inr ())
    ∧ length <$> mask = length <$> corr_2x2
    ∧ ∀ i j row, corr_2x2 !! i = Some row → (j < length row)%nat →
                 entry mask i j = Some (bool_decide (i ≤ j)%nat).
Proof.
  apply (heat_map_mask_is_boolean_upper_triangle (answer_corr corr_2x2)
           "Correlation" "BrBG" (25, 25) "pearson" two_columns
           corr_2x2 corr_2x2); reflexivity.
Defined.

Example heat_map_mask_2x2 :
  plot_correlation_heat_map (answer_corr corr_2x2) "Correlation" "BrBG" (25, 25)
    "pearson" two_columns
  = (State (table two_columns) []
       [PltFigure (25, 25);
        Heatmap corr_2x2 [[true; true]; [false; true]] "BrBG" "Correlation"],
     inr ()).
Proof. vm_compute. reflexivity. Qed.

(** * Further properties *)

(** ** The reports of the stationarity tests *)

Lemma for_each_critical_values {T} (repr_float : float64 → string)
    (crit : list (string * float64)) (s : state T) :
  for_each crit (λ kv, print "Critial Values:" ;;
                       print ("   " ++ fst kv ++ ", " ++ repr_float (snd kv))) s
  = (State (table s)
       (stdout s
        ++ concat ((λ kv : string * float64,
                      ["Critial Values:";
                       "   " ++ fst kv ++ ", " ++ repr_float (snd kv)])
                   <$> crit))
       (display s),
     inr ()).
Proof.
  revert s. induction crit as [|kv crit IH]; intros s.
  - simpl. rewrite app_nil_r. destruct s; reflexivity.
  - cbn [for_each]. unfold bind at 1. cbn [bind print table stdout display].
    rewrite IH. cbn [table stdout display fmap list_fmap concat].
    rewrite <- !app_assoc. reflexivity.
Qed.

(** X1.  When [adfuller] answers, [run_adfuller_test] writes exactly the
    lines of [adf_report] after what the console already holds: the four
    lines of the preamble, the statistic, the p-value, for every critical
    value the header line and the value, and one line with the verdict; it
    draws nothing.  These are 7 lines plus two per critical value. *)
Theorem run_adfuller_test_report adfuller repr_float (st : state NumFrame)
    auto_lag result :
  adfuller (values (table st)) auto_lag = inr result →
  run_adfuller_test adfuller repr_float auto_lag st
  = (State (table st) (stdout st ++ adf_report repr_float result) (display st),
     inr (F64.leb (adf_pvalue result) F64.lit_0_05))
  ∧ length (adf_report repr_float result)
    = (7 + 2 * length (adf_critical_values result))%nat.
Proof.
  intros H. split.
  - unfold run_adfuller_test. run_prefix. rewrite H. run_prefix.
    unfold bind at 1. rewrite for_each_critical_values.
    cbn [table stdout display]. unfold adf_report, adf_preamble.
    destruct (F64.leb (adf_pvalue result) F64.lit_0_05); run_prefix;
      rewrite <- !app_assoc; reflexivity.
  - unfold adf_report, adf_preamble. rewrite !length_app. cbn [length].
    assert (Hlen : ∀ crit : list (string * float64),
              length (concat ((λ kv : string * float64,
                                 ["Critial Values:";
                                  "   " +:+ fst kv +:+ ", " +:+ repr_float (snd kv)])
                              <$> crit))
              = (2 * length crit)%nat).
    { intros crit. induction crit as [|kv crit IH]; [reflexivity|].
      cbn [fmap list_fmap concat app length]. rewrite IH. lia. }
    rewrite Hlen. lia.
Qed.

Lemma run_adfuller_test_report_witness :
  run_adfuller_test (answer_adf adf_boundary) no_text "AIC" one_series
  = (State (table one_series)
       (stdout one_series ++ adf_report no_text adf_boundary)
       (display one_series),
     inr (F64.leb (adf_pvalue adf_boundary) F64.lit_0_05))
  ∧ length (adf_report no_text adf_boundary)
    = (7 + 2 * length (adf_critical_values adf_boundary))%nat.
Proof.
  apply (run_adfuller_test_report (answer_adf adf_boundary) no_text one_series
           "AIC" adf_boundary eq_refl).
Defined.

(** X2.  When [adfuller] raises, [run_adfuller_test] raises the same
    exception; by then it has written the four lines of its preamble and
    nothing else, and it has drawn nothing. *)
Theorem run_adfuller_test_propagates adfuller repr_float (st : state NumFrame)
    auto_lag e :
  adfuller (values (table st)) auto_lag = inl e →
  run_adfuller_test adfuller repr_float auto_lag st
  = (State (table st) (stdout st ++ adf_preamble) (display st), inl e).
Proof.
  intros H. unfold run_adfuller_test. run_prefix. rewrite H. run_prefix.
  unfold adf_preamble. rewrite <- !app_assoc. reflexivity.
Qed.

Lemma run_adfuller_test_propagates_witness :
  run_adfuller_test (failing_adf ValueError) no_text "AIC" one_series
  = (State (table one_series) (stdout one_series ++ adf_preamble)
       (display one_series), inl ValueError).
Proof.
  apply (run_adfuller_test_propagates (failing_adf ValueError) no_text
           one_series "AIC" ValueError eq_refl).
Defined.

Lemma series_setitem_fresh (s : Series) label value :
  label ∉ fst <$> s → series_setitem s label value = (s ++ [(label, value)])%list.
Proof.
  induction s as [|[l v] s IH]; intros Hfresh; simpl; [reflexivity|].
  rewrite fmap_cons in Hfresh. apply not_elem_of_cons in Hfresh as [Hne Hfresh].
  simpl in Hne. rewrite decide_False by congruence. rewrite IH by exact Hfresh.
  reflexivity.
Qed.

Lemma fold_series_setitem_fresh (entries : list (string * float64)) (s : Series) :
  NoDup (fst <$> entries) →
  (∀ l, l ∈ fst <$> entries → l ∉ fst <$> s) →
  fold_left (λ out kv, series_setitem out (fst kv) (snd kv)) entries s
  = (s ++ entries)%list.
Proof.
  revert s. induction entries as [|[l v] entries IH]; intros s Hnd Hfresh; simpl.
  - rewrite app_nil_r. reflexivity.
  - rewrite fmap_cons in Hnd. apply NoDup_cons in Hnd as [Hl Hnd]. simpl in Hl.
    rewrite series_setitem_fresh
      by (apply Hfresh; rewrite fmap_cons; apply list_elem_of_here).
    rewrite IH.
    + rewrite <- app_assoc. reflexivity.
    + exact Hnd.
    + intros l' Hl'. rewrite fmap_app. intros Hin.
      apply elem_of_app in Hin as [Hin|Hin].
      * revert Hin. apply Hfresh. rewrite fmap_cons. apply list_elem_of_further, Hl'.
      * simpl in Hin. apply elem_of_cons in Hin as [->|Hin]; [contradiction|].
        inversion Hin.
Qed.

Lemma fold_left_fmap_series (g : string * float64 → string * float64)
    (l : list (string * float64)) (s : Series) :
  fold_left (λ out kv, series_setitem out (fst (g kv)) (snd (g kv))) l s
  = fold_left (λ out kv, series_setitem out (fst kv) (snd kv)) (g <$> l) s.
Proof. revert s. induction l as [|kv l IH]; intros s; simpl; [reflexivity|apply IH]. Qed.

Lemma string_app_inj (p a b : string) : p ++ a = p ++ b → a = b.
Proof. induction p as [|c p IH]; simpl; [auto|]. intros [= E]. auto. Qed.

(** X3.  When [kpss] answers and the critical values have distinct keys (they
    come from a dictionary), [run_kpss_test] prints one series: the
    statistic, the p-value and the lags under their three labels, followed
    by every critical value under the label ["Critical Value " + key], in the
    order of the dictionary; then one line with the verdict.  It draws
    nothing. *)
Theorem run_kpss_test_report kpss repr_series (st : state NumFrame)
    regression result :
  kpss (table st) regression "auto" = inr result →
  NoDup (fst <$> kpss_critical_values result) →
  run_kpss_test kpss repr_series regression st
  = (State (table st)
       (stdout st ++ kpss_preamble
        ++ [repr_series (kpss_series result);
            if F64.leb (kpss_pvalue result) F64.lit_0_05
            then "Reject the null hypothesis (H0). The data is NON-STATIONARY."
            else "Fail to reject the null hypothesis (H0). The data is STATIONARY."])
       (display st),
     inr (negb (F64.leb (kpss_pvalue result) F64.lit_0_05))).
Proof.
  intros H Hnd. unfold run_kpss_test. run_prefix. rewrite H. run_prefix.
  set (s0 := [("Test Statistic", kpss_stat result);
              ("p-value", kpss_pvalue result);
              ("Lags Used", F64.of_Z (kpss_lags result))]).
  assert (Hfold :
    fold_left (λ out kv, series_setitem out ("Critical Value " ++ fst kv) (snd kv))
              (kpss_critical_values result) s0
    = kpss_series result).
  { unfold kpss_series. fold s0.
    rewrite <- (fold_series_setitem_fresh
                  ((λ kv : string * float64, ("Critical Value " +:+ fst kv, snd kv))
                   <$> kpss_critical_values result) s0).
    - apply (fold_left_fmap_series
               (λ kv : string * float64, ("Critical Value " +:+ fst kv, snd kv))).
    - rewrite <- list_fmap_compose. clear -Hnd.
      induction (kpss_critical_values result) as [|kv crit IH]; simpl.
      + constructor.
      + rewrite fmap_cons in Hnd. apply NoDup_cons in Hnd as [Hkv Hnd].
        apply NoDup_cons. split; [|apply IH, Hnd].
        intros Hin. apply Hkv. apply list_elem_of_fmap in Hin as (kv' & E & Hin).
        simpl in E. apply string_app_inj in E. rewrite E.
        apply list_elem_of_fmap. exists kv'. auto.
    - intros l Hl. rewrite <- list_fmap_compose in Hl.
      apply list_elem_of_fmap in Hl as (kv & -> & _). simpl.
      intros Hin. subst s0. simpl in Hin.
      repeat (apply elem_of_cons in Hin as [Hin|Hin]; [discriminate Hin|]).
      inversion Hin. }
  rewrite Hfold.
  assert (Hget : @series_getitem_int NumFrame (kpss_series result) 1
                 = ret (kpss_pvalue result)) by reflexivity.
  rewrite Hget. run_prefix. unfold kpss_preamble.
  destruct (F64.leb (kpss_pvalue result) F64.lit_0_05); run_prefix;
    rewrite <- !app_assoc; reflexivity.
Qed.

Lemma run_kpss_test_report_witness :
  run_kpss_test (answer_kpss kpss_boundary) no_text "c" one_series
  = (State (table one_series)
       (stdout one_series ++ kpss_preamble
        ++ [no_text (kpss_series kpss_boundary);
            if F64.leb (kpss_pvalue kpss_boundary) F64.lit_0_05
            then "Reject the null hypothesis (H0). The data is NON-STATIONARY."
            else "Fail to reject the null hypothesis (H0). The data is STATIONARY."])
       (display one_series),
     inr (negb (F64.leb (kpss_pvalue kpss_boundary) F64.lit_0_05))).
Proof.
  apply (run_kpss_test_report (answer_kpss kpss_boundary) no_text one_series
           "c" kpss_boundary eq_refl).
  repeat (constructor; [intros Hin;
    repeat (apply elem_of_cons in Hin as [Hin|Hin]; [discriminate Hin|]);
    inversion Hin|]).
  constructor.
Defined.

(** X4.  When [kpss] raises, [run_kpss_test] raises the same exception; by
    then it has written the four lines of its preamble and nothing else, and
    it has drawn nothing. *)
Theorem run_kpss_test_propagates kpss repr_series (st : state NumFrame)
    regression e :
  kpss (table st) regression "auto" = inl e →
  run_kpss_test kpss repr_series regression st
  = (State (table st) (stdout st ++ kpss_preamble) (display st), inl e).
Proof.
  intros H. unfold run_kpss_test. run_prefix. rewrite H. run_prefix.
  unfold kpss_preamble. rewrite <- !app_assoc. reflexivity.
Qed.

Lemma run_kpss_test_propagates_witness :
  run_kpss_test (failing_kpss ValueError) no_text "c" one_series
  = (State (table one_series) (stdout one_series ++ kpss_preamble)
       (display one_series), inl ValueError).
Proof.
  apply (run_kpss_test_propagates (failing_kpss ValueError) no_text
           one_series "c" ValueError eq_refl).
Defined.

(** ** More on the threshold grouper *)

(** X5.  When the table has no column [column_name], the grouper raises
    [KeyError(column_name)]; it draws nothing, does not remove the plot
    target, and leaves the table and the console as they were. *)
Theorem grouper_missing_column (st : state CatFrame) column_name title threshold
    grouped_label x_label y_label font_size start_angle :
  getitem (table st) column_name = None →
  create_pie_chart_with_grouped_threshold column_name title threshold
    grouped_label x_label y_label font_size start_angle st
  = (st, inl (KeyError column_name)).
Proof.
  intros H. unfold create_pie_chart_with_grouped_threshold, bind.
  rewrite df_getitem_run, H. reflexivity.
Qed.

Lemma grouper_missing_column_witness :
  create_pie_chart_with_grouped_threshold "category" "Categories"
    F64.lit_0_05 "Others" EmptyString EmptyString 14 90 no_category_column
  = (no_category_column, inl (KeyError "category")).
Proof. apply grouper_missing_column. reflexivity. Defined.

(** Python's order on strings is a total order. *)
Lemma ascii_compare_trans_le (a b c : ascii) :
  Ascii.compare a b ≠ Gt → Ascii.compare b c ≠ Gt → Ascii.compare a c ≠ Gt.
Proof.
  unfold Ascii.compare. rewrite !N.compare_gt_iff. lia.
Qed.

Lemma string_compare_refl (s : string) : String.compare s s = Eq.
Proof.
  induction s as [|c s IH]; simpl; [reflexivity|].
  unfold Ascii.compare. rewrite N.compare_refl. exact IH.
Qed.

Lemma string_compare_trans_le (a b c : string) :
  String.compare a b ≠ Gt → String.compare b c ≠ Gt → String.compare a c ≠ Gt.
Proof.
  revert b c. induction a as [|x a IH]; intros [|y b] [|z c]; simpl;
    try congruence.
  unfold Ascii.compare.
  destruct (N.compare_spec (N_of_ascii x) (N_of_ascii y)) as [Exy|Lxy|Gxy];
    destruct (N.compare_spec (N_of_ascii y) (N_of_ascii z)) as [Eyz|Lyz|Gyz];
    try congruence.
  - rewrite Exy, Eyz, N.compare_refl. apply IH.
  - intros _ _. rewrite Exy. rewrite (proj2 (N.compare_lt_iff _ _) Lyz). discriminate.
  - intros _ _. rewrite <- Eyz. rewrite (proj2 (N.compare_lt_iff _ _) Lxy). discriminate.
  - intros _ _.
    rewrite (proj2 (N.compare_lt_iff _ _) (N.lt_trans _ _ _ Lxy Lyz)). discriminate.
Qed.

Lemma str_le_compare (a b : string) : str_le a b ↔ String.compare a b ≠ Gt.
Proof.
  unfold str_le, String.leb. destruct (String.compare a b); split; congruence.
Qed.

Global Instance str_le_trans : Transitive str_le.
Proof.
  intros a b c. rewrite !str_le_compare. apply string_compare_trans_le.
Qed.

Global Instance str_le_total : Total str_le.
Proof. intros a b. apply String.leb_total. Qed.

Global Instance str_le_antisymm : AntiSymm (=) str_le.
Proof. intros a b. apply String.leb_antisym. Qed.

(** The group keys are in ascending order. *)
Lemma categories_Sorted cells : Sorted str_le (categories cells).
Proof. unfold categories. apply (Sorted_merge_sort str_le). Qed.

(** The group keys depend on the rows as a multiset only. *)
Lemma categories_Permutation cells cells' :
  cells ≡ₚ cells' → categories cells = categories cells'.
Proof.
  intros Hperm.
  apply (Sorted_unique str_le); try apply categories_Sorted.
  apply NoDup_Permutation; try apply categories_NoDup.
  intros k. rewrite !elem_of_categories, Hperm. reflexivity.
Qed.

Lemma n_category_Permutation cells cells' k :
  cells ≡ₚ cells' → n_category cells k = n_category cells' k.
Proof. intros Hperm. unfold n_category. rewrite Hperm. reflexivity. Qed.

Lemma n_present_Permutation cells cells' :
  cells ≡ₚ cells' → n_present cells = n_present cells'.
Proof. intros Hperm. unfold n_present. rewrite Hperm. reflexivity. Qed.

Lemma final_label_Permutation threshold grouped_label cells cells' k :
  cells ≡ₚ cells' →
  final_label threshold grouped_label cells k
  = final_label threshold grouped_label cells' k.
Proof.
  intros Hperm. unfold final_label, fraction.
  rewrite (n_category_Permutation _ _ k Hperm), (n_present_Permutation _ _ Hperm).
  reflexivity.
Qed.

Lemma n_final_Permutation threshold grouped_label cells cells' l :
  cells ≡ₚ cells' →
  n_final threshold grouped_label cells l
  = n_final threshold grouped_label cells' l.
Proof.
  intros Hperm. unfold n_final.
  rewrite (list_filter_iff
             (λ c, final_label threshold grouped_label cells <$> c = Some l)
             (λ c, final_label threshold grouped_label cells' <$> c = Some l)).
  - rewrite Hperm. reflexivity.
  - intros [k|]; simpl; [|reflexivity].
    rewrite (final_label_Permutation _ _ _ _ k Hperm). reflexivity.
Qed.

Lemma pie_series_Permutation_rows threshold grouped_label cells cells' :
  cells ≡ₚ cells' →
  pie_series threshold grouped_label (groupby_size cells)
  = pie_series threshold grouped_label (groupby_size cells').
Proof.
  intros Hperm. unfold pie_series. rewrite !groupby_sum_label_rows.
  f_equal. unfold final_labels. rewrite <- (categories_Permutation _ _ Hperm).
  rewrite (list_fmap_ext (final_label threshold grouped_label cells)
             (final_label threshold grouped_label cells') (categories cells))
    by (intros; apply final_label_Permutation, Hperm).
  apply list_fmap_ext. intros i l _. f_equal.
  apply n_final_Permutation, Hperm.
Qed.

(** X6.  The chart does not depend on the order of the rows: on two tables
    whose category columns (called neither [sizes] nor [perc]) hold the same
    values in a different order, the grouper returns the same result and
    makes the same single drawing step. *)
Theorem grouper_row_order (st st' : state CatFrame) column_name title threshold
    grouped_label x_label y_label font_size start_angle cells cells' :
  getitem (table st) column_name = Some cells →
  getitem (table st') column_name = Some cells' →
  column_name ≠ "sizes" → column_name ≠ "perc" →
  cells ≡ₚ cells' →
  ∃ step,
    create_pie_chart_with_grouped_threshold column_name title threshold
      grouped_label x_label y_label font_size start_angle st
    = (State (table st) (stdout st) (display st ++ [step]), inr ())
    ∧ create_pie_chart_with_grouped_threshold column_name title threshold
        grouped_label x_label y_label font_size start_angle st'
      = (State (table st') (stdout st') (display st' ++ [step]), inr ()).
Proof.
  intros H H' Hsizes _ Hperm.
  rewrite (create_pie_chart_runs _ _ _ _ _ _ _ _ _ _ H Hsizes).
  rewrite (create_pie_chart_runs _ _ _ _ _ _ _ _ _ _ H' Hsizes).
  eexists. split; [reflexivity|].
  rewrite (pie_series_Permutation_rows _ _ _ _ Hperm).
  assert (E : bool_decide (groupby_size cells ≠ [])
              = bool_decide (groupby_size cells' ≠ [])).
  { apply bool_decide_ext. rewrite !groupby_size_nil.
    split; intros Hn Hall; apply Hn; intros c Hc; apply Hall;
      [rewrite <- Hperm|rewrite Hperm]; exact Hc. }
  rewrite E. reflexivity.
Qed.

Lemma grouper_row_order_witness :
  ∃ step,
    create_pie_chart_with_grouped_threshold "category" "Categories"
      F64.lit_0_05 "Others" EmptyString EmptyString 14 90 scenario
    = (State (table scenario) (stdout scenario) (display scenario ++ [step]),
       inr ())
    ∧ create_pie_chart_with_grouped_threshold "category" "Categories"
        F64.lit_0_05 "Others" EmptyString EmptyString 14 90 scenario_reversed
      = (State (table scenario_reversed) (stdout scenario_reversed)
           (display scenario_reversed ++ [step]), inr ()).
Proof.
  apply (grouper_row_order scenario scenario_reversed "category" "Categories"
           F64.lit_0_05 "Others" EmptyString EmptyString 14 90
           scenario_cells (reverse scenario_cells) eq_refl eq_refl).
  - discriminate.
  - discriminate.
  - symmetry. apply reverse_Permutation.
Defined.

Lemma filter_ext_in {A} (P Q : A → Prop) `{∀ x, Decision (P x)}
    `{∀ x, Decision (Q x)} (l : list A) :
  (∀ x, x ∈ l → (P x ↔ Q x)) → filter P l = filter Q l.
Proof.
  induction l as [|x l IH]; intros Hext; [reflexivity|].
  rewrite !filter_cons.
  rewrite IH by (intros y Hy; apply Hext, list_elem_of_further, Hy).
  pose proof (Hext x (list_elem_of_here _ _)) as Hx.
  destruct (decide (P x)), (decide (Q x)); tauto.
Qed.

(** When no category is below the threshold, the second group-by gives the
    first one back. *)
Lemma groupby_sum_nothing_below threshold grouped_label cells :
  (∀ k, Some k ∈ cells → F64.ltb (fraction cells k) threshold = false) →
  groupby_sum (label_rows threshold grouped_label (groupby_size cells))
  = groupby_size cells.
Proof.
  intros Hnone.
  assert (Hlabel : ∀ k, Some k ∈ cells →
                        final_label threshold grouped_label cells k = k).
  { intros k Hk. unfold final_label. rewrite (Hnone k Hk). reflexivity. }
  rewrite groupby_sum_label_rows, groupby_size_categories.
  assert (E : final_labels threshold grouped_label cells = categories cells).
  { apply (Sorted_unique str_le).
    - unfold final_labels. apply (Sorted_merge_sort str_le).
    - apply categories_Sorted.
    - apply NoDup_Permutation;
        [apply final_labels_NoDup|apply categories_NoDup|].
      intros l. rewrite elem_of_final_labels, elem_of_categories. split.
      + intros (k & Hk & <-). rewrite (Hlabel k Hk). exact Hk.
      + intros Hl. exists l. split; [exact Hl|apply Hlabel, Hl]. }
  rewrite E. apply list_fmap_ext. intros i l Hl. f_equal.
  unfold n_final, n_category. f_equal. apply filter_ext_in.
  intros [k|] Hk; simpl; [|split; discriminate].
  rewrite (Hlabel k Hk). reflexivity.
Qed.

(** The quotient of two counts is not negative. *)
Lemma binary_round_aux_not_negative mx ex lx :
  not_negative (binary_round_aux F64.prec F64.emax false mx ex lx).
Proof.
  unfold binary_round_aux.
  destruct (shr_fexp F64.prec F64.emax mx ex lx) as [mrs' e'].
  destruct (shr_fexp F64.prec F64.emax _ e' loc_Exact) as [mrs'' e''].
  destruct (shr_m mrs'') as [|m|m]; simpl; auto.
  destruct (e'' <=? F64.emax - F64.prec)%Z; simpl; auto.
Qed.

Lemma of_nat_not_negative (n : nat) : not_negative (F64.of_Z (Z.of_nat n)).
Proof.
  unfold F64.of_Z, binary_normalize. destruct (Z.of_nat n) as [|m|m] eqn:E.
  - reflexivity.
  - unfold binary_round. destruct (shl_align _ _ _). apply binary_round_aux_not_negative.
  - lia.
Qed.

Lemma div_not_negative (x y : float64) :
  not_negative x → not_negative y → not_negative (F64.div x y).
Proof.
  unfold F64.div, SFdiv.
  destruct x as [sx|sx| |sx mx ex], y as [sy|sy| |sy my ey];
    intros Hx Hy; simpl in Hx, Hy; subst; cbn [xorb]; try exact I;
    try reflexivity.
  destruct (SFdiv_core_binary _ _ _ _ _ _) as [[mz ez] lz].
  apply binary_round_aux_not_negative.
Qed.

Lemma fraction_not_negative cells k : not_negative (fraction cells k).
Proof. unfold fraction. apply div_not_negative; apply of_nat_not_negative. Qed.

Lemma ltb_zero_not_negative (x : float64) (s : bool) :
  not_negative x → F64.ltb x (S754_zero s) = false.
Proof.
  destruct x as [sx|sx| |sx mx ex]; simpl; try reflexivity; intros ->; reflexivity.
Qed.

Lemma ltb_nan (x : float64) : F64.ltb x F64.nan = false.
Proof. destruct x as [sx|sx| |sx mx ex]; reflexivity. Qed.

(** X7.  With a threshold of zero (of either sign) or a threshold that is
    NaN, no category is merged: the plotted series is ascending by count
    and is a rearrangement of the group sizes themselves, one group for
    every category, under its own name and with its own number of rows. *)
Theorem grouper_zero_threshold (st : state CatFrame) column_name title threshold
    grouped_label x_label y_label font_size start_angle cells :
  getitem (table st) column_name = Some cells →
  column_name ≠ "sizes" → column_name ≠ "perc" →
  (∃ k, Some k ∈ cells) →
  (threshold = F64.nan ∨ ∃ s, threshold = S754_zero s) →
  ∃ out,
    create_pie_chart_with_grouped_threshold column_name title threshold
      grouped_label x_label y_label font_size start_angle st
    = (State (table st) (stdout st)
         (display st
          ++ [PiePlot out title x_label y_label font_size start_angle]),
       inr ())
    ∧ Sorted count_le out
    ∧ out ≡ₚ (λ k, (k, n_category cells k)) <$> categories cells
    ∧ (∀ k n, (k, n) ∈ out ↔ Some k ∈ cells ∧ n = n_category cells k).
Proof.
  intros Hcol Hsizes _ Hsome Hth.
  exists (pie_series threshold grouped_label (groupby_size cells)).
  assert (E : pie_series threshold grouped_label (groupby_size cells)
              ≡ₚ (λ k, (k, n_category cells k)) <$> categories cells).
  { unfold pie_series. rewrite sort_values_Permutation.
    rewrite groupby_sum_nothing_below.
    - rewrite groupby_size_categories. reflexivity.
    - intros k _. destruct Hth as [->|[s ->]].
      + apply ltb_nan.
      + apply ltb_zero_not_negative, fraction_not_negative. }
  split; [|split; [|split]].
  - rewrite (create_pie_chart_runs _ _ _ _ _ _ _ _ _ _ Hcol Hsizes).
    rewrite (groupby_size_nonempty _ Hsome). reflexivity.
  - apply pie_series_Sorted.
  - exact E.
  - intros k n. rewrite E, list_elem_of_fmap. split.
    + intros (k' & [= -> ->] & Hk). split; [|reflexivity].
      apply elem_of_categories, Hk.
    + intros [Hk ->]. exists k. split; [reflexivity|].
      apply elem_of_categories, Hk.
Qed.

Lemma grouper_zero_threshold_witness :
  ∃ out,
    create_pie_chart_with_grouped_threshold "category" "Categories"
      (S754_zero false) "Others" EmptyString EmptyString 14 90 scenario
    = (State (table scenario) (stdout scenario)
         (display scenario
          ++ [PiePlot out "Categories" EmptyString EmptyString 14 90]),
       inr ())
    ∧ Sorted count_le out
    ∧ out ≡ₚ (λ k, (k, n_category scenario_cells k)) <$> categories scenario_cells
    ∧ (∀ k n, (k, n) ∈ out
              ↔ Some k ∈ scenario_cells ∧ n = n_category scenario_cells k).
Proof.
  apply (grouper_zero_threshold scenario "category" "Categories"
           (S754_zero false) "Others" EmptyString EmptyString 14 90
           scenario_cells eq_refl).
  - discriminate.
  - discriminate.
  - exists "A". apply list_elem_of_here.
  - right. exists false. reflexivity.
Defined.



(** ** More on [plot_measuring_points] *)

(** X9.  When the table has no coordinates column, [plot_measuring_points]
    raises [KeyError(coordinates_column)] and leaves the table, the console
    and the drawing surface as they were. *)
Theorem plot_measuring_points_missing_coordinates fos cc color
    (st : state (Frame column)) :
  getitem (table st) cc = None →
  plot_measuring_points fos cc color st = (st, inl (KeyError cc)).
Proof.
  intros H. unfold plot_measuring_points, bind.
  rewrite coordinate_run, H. reflexivity.
Qed.

Lemma plot_measuring_points_missing_coordinates_witness :
  plot_measuring_points decimal_literal "coordinates" None no_coordinates
  = (no_coordinates, inl (KeyError "coordinates")).
Proof. apply plot_measuring_points_missing_coordinates. reflexivity. Defined.

Lemma astype_float_raises fos cells e :
  astype_float fos cells = inl e → e = ValueError.
Proof.
  induction cells as [|cell cells IH]; simpl; [discriminate|].
  destruct (match cell with None => _ | Some s => _ end); [|congruence].
  destruct (astype_float fos cells); [|discriminate].
  intros [= <-]. apply IH. reflexivity.
Qed.

Lemma astype_float_length fos cells xs :
  astype_float fos cells = inr xs → length xs = length cells.
Proof.
  revert xs. induction cells as [|cell cells IH]; intros xs; simpl.
  - intros [= <-]. reflexivity.
  - destruct (match cell with None => _ | Some s => _ end); [|discriminate].
    destruct (astype_float fos cells) as [|ys]; [discriminate|].
    intros [= <-]. simpl. f_equal. apply IH. reflexivity.
Qed.

(** X10.  When [float] rejects the latitude of some row, the call raises
    [ValueError] and the table is untouched.  When the latitudes are
    accepted and [float] rejects the longitude of some row, the call raises
    [ValueError] as well, but the caller's table has got the [lat] column by
    then; nothing is drawn in either case. *)
Theorem plot_measuring_points_rejected_coordinates fos cc color
    (st : state (Frame column)) cells :
  getitem (table st) cc = Some (ObjCol cells) →
  cc ≠ "lat" →
  (∀ e, astype_float fos (str_split_get "," 0 cells) = inl e →
        plot_measuring_points fos cc color st = (st, inl ValueError))
  ∧ (∀ lat e, astype_float fos (str_split_get "," 0 cells) = inr lat →
              astype_float fos (str_split_get "," 1 cells) = inl e →
              plot_measuring_points fos cc color st
              = (State (setitem (table st) "lat" (FloatCol lat))
                       (stdout st) (display st),
                 inl ValueError)).
Proof.
  intros Hcc Hne. split.
  - intros e He. rewrite (astype_float_raises _ _ _ He) in He.
    unfold plot_measuring_points, bind. rewrite coordinate_run, Hcc.
    cbn [str_accessor]. rewrite He. destruct st; reflexivity.
  - intros lat e Hlat He. rewrite (astype_float_raises _ _ _ He) in He.
    unfold plot_measuring_points, bind. rewrite coordinate_run, Hcc.
    cbn [str_accessor]. rewrite Hlat.
    cbn [df_setitem bind get_table put_table table stdout display].
    rewrite coordinate_run. cbn [table].
    rewrite (getitem_setitem_ne _ "lat" _ _ (not_eq_sym Hne)), Hcc.
    cbn [str_accessor]. rewrite He. reflexivity.
Qed.

Lemma plot_measuring_points_rejected_coordinates_witness :
  plot_measuring_points decimal_literal "coordinates" None bad_latitude
  = (bad_latitude, inl ValueError)
  ∧ plot_measuring_points decimal_literal "coordinates" None bad_longitude
    = (State (setitem (table bad_longitude) "lat"
                (FloatCol [S754_finite false 5826532017910579 (-47)]))
             (stdout bad_longitude) (display bad_longitude),
       inl ValueError).
Proof.
  split.
  - apply (proj1 (plot_measuring_points_rejected_coordinates decimal_literal
                    "coordinates" None bad_latitude [Some "north,2.07"]
                    eq_refl ltac:(discriminate)) ValueError).
    vm_compute. reflexivity.
  - apply (proj2 (plot_measuring_points_rejected_coordinates decimal_literal
                    "coordinates" None bad_longitude [Some "41.4,east"]
                    eq_refl ltac:(discriminate)) _ ValueError);
      vm_compute; reflexivity.
Defined.

(** X11.  When the table has an [id] column, the hover label is built from
    it, whether or not a [measuring_point_id] column is there as well: the
    [text] column is [id + ' : ' + description]. *)
Theorem plot_measuring_points_prefers_id fos cc color
    (st : state (Frame column)) lat lon ids left description text :
  getitem (table st) "id" = Some ids →
  coordinates_ok fos (table st) cc lat lon →
  add_str ids " : " = inr left →
  getitem (table st) "description" = Some description →
  add_col left description = inr text →
  getitem (table (fst (plot_measuring_points fos cc color st))) "text"
  = Some (ObjCol text).
Proof.
  intros Hid Hok Hleft Hdesc Htext.
  remember (plot_measuring_points fos cc color st) as run eqn:E.
  run_coordinates Hok E. rewrite Hid in E.
  unfold lift in E. rewrite Hleft in E.
  rewrite df_getitem_run in E. cbn [table] in E.
  rewrite !(getitem_setitem_ne _ _ _ "description") in E by discriminate.
  rewrite Hdesc, Htext in E.
  cbn [df_setitem bind get_table put_table table stdout display] in E.
  unfold scatter_mapbox, bind, get_table in E. cbn [table] in E.
  subst run.
  match goal with
  | |- context [bool_decide ?P] => destruct (bool_decide P)
  end; simpl; apply getitem_setitem_eq.
Qed.

Lemma plot_measuring_points_prefers_id_witness :
  getitem (table (fst (plot_measuring_points decimal_literal "coordinates" None
                         one_point_both))) "text"
  = Some (ObjCol [Some "p1 : gate"]).
Proof.
  apply (plot_measuring_points_prefers_id decimal_literal "coordinates" None
           one_point_both _ _ (ObjCol [Some "p1"]) [Some "p1 : "]
           (ObjCol [Some "gate"]) [Some "p1 : gate"]
           eq_refl (coordinates_ok_one_point (table one_point_both) eq_refl)
           eq_refl eq_refl eq_refl).
Defined.














Lemma setitem_same {C} (df : Frame C) name c :
  getitem df name = Some c → setitem df name c = df.
Proof.
  induction df as [|[n c0] df IH]; simpl; [discriminate|].
  destruct (decide (n = name)) as [E|E].
  - intros [= ->]. reflexivity.
  - intros H. rewrite (IH H). reflexivity.
Qed.

(** What a normal return of [plot_measuring_points] tells about the table
    it was called on. *)
Lemma plot_measuring_points_inversion fos cc color (st : state (Frame column)) :
  cc ≠ "lat" →
  snd (plot_measuring_points fos cc color st) = inr () →
  ∃ cells lat lon ids lhs description text,
    let t2 := setitem (setitem (table st) "lat" (FloatCol lat)) "lon" (FloatCol lon) in
    let t3 := setitem t2 "text" (ObjCol text) in
    getitem (table st) cc = Some (ObjCol cells)
    ∧ astype_float fos (str_split_get "," 0 cells) = inr lat
    ∧ astype_float fos (str_split_get "," 1 cells) = inr lon
    ∧ match getitem (table st) "id" with
      | Some c => inr c
      | None =>
          match getitem (table st) "measuring_point_id" with
          | Some c => inr c
          | None => inl (KeyError "measuring_point_id")
          end
      end = (inr ids : exn + column)
    ∧ add_str ids " : " = inr lhs
    ∧ getitem (table st) "description" = Some description
    ∧ add_col lhs description = inr text
    ∧ bool_decide (Forall (λ name, is_Some (getitem t3 name))
                          (["lat"; "lon"; "text"] ++ option_list color)) = true
    ∧ table (fst (plot_measuring_points fos cc color st)) = t3.
Proof.
  intros Hne.
  remember (plot_measuring_points fos cc color st) as run eqn:E.
  unfold plot_measuring_points, bind in E. rewrite coordinate_run in E.
  destruct (getitem (table st) cc) as [[cells| |]|] eqn:Hcc;
    cbn [str_accessor] in E; try (subst run; discriminate).
  destruct (astype_float fos (str_split_get "," 0 cells)) as [e|lat] eqn:Hlat;
    [subst run; discriminate|].
  cbn [df_setitem bind get_table put_table table stdout display] in E.
  rewrite coordinate_run in E. cbn [table] in E.
  rewrite (getitem_setitem_ne _ "lat" _ _ (not_eq_sym Hne)), Hcc in E.
  cbn [str_accessor] in E.
  destruct (astype_float fos (str_split_get "," 1 cells)) as [e|lon] eqn:Hlon;
    [subst run; discriminate|].
  cbn [df_setitem bind get_table put_table table stdout display] in E.
  rewrite measuring_point_ids_run in E. cbn [table] in E.
  rewrite !(getitem_setitem_ne _ "lon" _ "id") in E by discriminate.
  rewrite !(getitem_setitem_ne _ "lat" _ "id") in E by discriminate.
  rewrite !(getitem_setitem_ne _ "lon" _ "measuring_point_id") in E by discriminate.
  rewrite !(getitem_setitem_ne _ "lat" _ "measuring_point_id") in E by discriminate.
  destruct (match getitem (table st) "id" with Some _ => _ | None => _ end)
    as [e|ids] eqn:Hids; [subst run; discriminate|].
  unfold lift in E.
  destruct (add_str ids " : ") as [e|lhs] eqn:Hlhs; [subst run; discriminate|].
  rewrite df_getitem_run in E. cbn [table] in E.
  rewrite !(getitem_setitem_ne _ _ _ "description") in E by discriminate.
  destruct (getitem (table st) "description") as [description|] eqn:Hdesc;
    [|subst run; discriminate].
  destruct (add_col lhs description) as [e|text] eqn:Htext; [subst run; discriminate|].
  cbn [df_setitem bind get_table put_table table stdout display] in E.
  unfold scatter_mapbox, bind, get_table in E. cbn [table] in E.
  match type of E with
  | context [bool_decide ?P] => destruct (bool_decide P) eqn:Hcolor
  end; [|subst run; discriminate].
  intros _. exists cells, lat, lon, ids, lhs, description, text.
  cbv zeta. repeat (split; [first [reflexivity|assumption]|]).
  subst run. reflexivity.
Qed.

(** X16.  Calling [plot_measuring_points] a second time on the table the
    first call has left changes the table no more: when the first call
    returns and the coordinates column is none of [lat], [lon] and [text],
    the second call returns too and leaves the table as the first call left
    it. *)
Theorem plot_measuring_points_twice fos cc color (st : state (Frame column)) :
  cc ∉ ["lat"; "lon"; "text"] →
  snd (plot_measuring_points fos cc color st) = inr () →
  let st1 := fst (plot_measuring_points fos cc color st) in
  snd (plot_measuring_points fos cc color st1) = inr ()
  ∧ table (fst (plot_measuring_points fos cc color st1)) = table st1.
Proof.
  intros Hcc Hret st1.
  assert (Hlat : cc ≠ "lat") by (intros ->; apply Hcc; repeat constructor).
  assert (Hlon : cc ≠ "lon") by (intros ->; apply Hcc; repeat constructor).
  assert (Htxt : cc ≠ "text") by (intros ->; apply Hcc; repeat constructor).
  destruct (plot_measuring_points_inversion fos cc color st Hlat Hret)
    as (cells & lat & lon & ids & lhs & description & text & H).
  cbv zeta in H.
  destruct H as (Hcells & Elat & Elon & Hids & Hlhs & Hdesc & Htext & Hcolor & Ht).
  set (t3 := setitem (setitem (setitem (table st) "lat" (FloatCol lat))
                              "lon" (FloatCol lon)) "text" (ObjCol text)) in *.
  assert (G : ∀ name, name ∉ ["lat"; "lon"; "text"] →
                      getitem t3 name = getitem (table st) name).
  { intros name Hn. unfold t3.
    rewrite !getitem_setitem_ne; [reflexivity|..];
      intros <-; apply Hn; repeat constructor. }
  assert (Glat : getitem t3 "lat" = Some (FloatCol lat)).
  { unfold t3. rewrite !getitem_setitem_ne by discriminate.
    apply getitem_setitem_eq. }
  assert (Glon : getitem t3 "lon" = Some (FloatCol lon)).
  { unfold t3. rewrite getitem_setitem_ne by discriminate.
    apply getitem_setitem_eq. }
  assert (Gtext : getitem t3 "text" = Some (ObjCol text)).
  { unfold t3. apply getitem_setitem_eq. }
  assert (Gid : getitem t3 "id" = getitem (table st) "id").
  { apply G. intros Hin.
    repeat (apply elem_of_cons in Hin as [Hin|Hin]; [discriminate Hin|]).
    inversion Hin. }
  assert (Gmp : getitem t3 "measuring_point_id"
                = getitem (table st) "measuring_point_id").
  { apply G. intros Hin.
    repeat (apply elem_of_cons in Hin as [Hin|Hin]; [discriminate Hin|]).
    inversion Hin. }
  assert (Gdesc : getitem t3 "description" = Some description).
  { rewrite <- Hdesc. apply G. intros Hin.
    repeat (apply elem_of_cons in Hin as [Hin|Hin]; [discriminate Hin|]).
    inversion Hin. }
  remember (plot_measuring_points fos cc color st1) as run eqn:E.
  unfold plot_measuring_points, bind in E. rewrite coordinate_run in E.
  subst st1. rewrite Ht in E. rewrite (G cc Hcc), Hcells in E.
  cbn [str_accessor] in E. rewrite Elat in E.
  cbn [df_setitem bind get_table put_table table stdout display] in E.
  rewrite Ht in E. rewrite (setitem_same t3 "lat" _ Glat) in E.
  rewrite coordinate_run in E. cbn [table] in E.
  rewrite (G cc Hcc), Hcells in E. cbn [str_accessor] in E. rewrite Elon in E.
  cbn [df_setitem bind get_table put_table table stdout display] in E.
  rewrite (setitem_same t3 "lon" _ Glon) in E.
  rewrite measuring_point_ids_run in E. cbn [table] in E.
  rewrite Gid, Gmp, Hids in E. unfold lift in E. rewrite Hlhs in E.
  rewrite df_getitem_run in E. cbn [table] in E. rewrite Gdesc, Htext in E.
  cbn [df_setitem bind get_table put_table table stdout display] in E.
  rewrite (setitem_same t3 "text" _ Gtext) in E.
  unfold scatter_mapbox, bind, get_table in E. cbn [table] in E.
  rewrite Hcolor in E. subst run. rewrite Ht. split; reflexivity.
Qed.

Lemma plot_measuring_points_twice_witness :
  snd (plot_measuring_points decimal_literal "coordinates" None
         (fst (plot_measuring_points decimal_literal "coordinates" None one_point)))
  = inr ()
  ∧ table (fst (plot_measuring_points decimal_literal "coordinates" None
                  (fst (plot_measuring_points decimal_literal "coordinates" None
                          one_point))))
    = table (fst (plot_measuring_points decimal_literal "coordinates" None one_point)).
Proof.
  apply (plot_measuring_points_twice decimal_literal "coordinates" None one_point).
  - intros Hin.
    repeat (apply elem_of_cons in Hin as [Hin|Hin]; [discriminate Hin|]).
    inversion Hin.
  - vm_compute. reflexivity.
Defined.

(** ** More on [plot_correlation_heat_map] *)

(** X17.  When the correlation routine raises, for the mask or for the heat
    map itself, [plot_correlation_heat_map] raises the same exception; the
    figure has been opened by then and no heat map is drawn. *)
Theorem plot_correlation_heat_map_propagates corr title color_map fig_size
    method (st : state (Frame column)) e :
  (corr (table st) "pearson" = inl e
   ∨ (∃ shape, corr (table st) "pearson" = inr shape)
     ∧ corr (table st) method = inl e) →
  plot_correlation_heat_map corr title color_map fig_size method st
  = (State (table st) (stdout st) (display st ++ [PltFigure fig_size]), inl e).
Proof.
  intros [H|[[shape Hshape] H]]; unfold plot_correlation_heat_map; run_prefix.
  - rewrite H. reflexivity.
  - rewrite Hshape. run_prefix. rewrite H. reflexivity.
Qed.

Lemma plot_correlation_heat_map_propagates_witness :
  plot_correlation_heat_map (failing_corr TypeError) "Correlation" "BrBG"
    (25, 25) "pearson" two_columns
  = (State (table two_columns) (stdout two_columns)
       (display two_columns ++ [PltFigure (25, 25)]), inl TypeError)
  ∧ plot_correlation_heat_map (pearson_only corr_2x2) "Correlation" "BrBG"
      (25, 25) "cosine" two_columns
    = (State (table two_columns) (stdout two_columns)
         (display two_columns ++ [PltFigure (25, 25)]), inl ValueError).
Proof.
  split.
  - apply plot_correlation_heat_map_propagates. left. reflexivity.
  - apply plot_correlation_heat_map_propagates. right.
    split; [exists corr_2x2|]; reflexivity.
Defined.

Lemma fmap_const_replicate {A B} (b : B) (l : list A) :
  (λ _, b) <$> l = replicate (length l) b.
Proof. induction l as [|x l IH]; simpl; [reflexivity|]. rewrite <- IH. reflexivity. Qed.

(** The mask is a function of the shape alone. *)
Lemma mask_of_shape {A B} (m1 : matrix A) (m2 : matrix B) :
  length <$> m1 = length <$> m2 →
  triu false (ones_like_bool m1) = triu false (ones_like_bool m2).
Proof.
  intros Hshape. unfold triu, ones_like_bool. apply list_eq. intros i.
  rewrite !list_lookup_imap, !list_lookup_fmap.
  assert (Hi : length <$> m1 !! i = length <$> m2 !! i)
    by (rewrite <- !list_lookup_fmap, Hshape; reflexivity).
  destruct (m1 !! i) as [row1|], (m2 !! i) as [row2|]; simpl in *;
    try discriminate; [|reflexivity].
  injection Hi as Hlen. rewrite !fmap_const_replicate, Hlen. reflexivity.
Qed.

(** X18.  The mask depends on the shape of the correlation matrix only: two
    calls whose correlation matrices have the same shape draw their heat
    maps with the same mask, whatever the tables, the correlations and the
    correlation methods are. *)
Theorem heat_map_mask_depends_on_shape corr1 corr2 title1 title2 cmap1 cmap2
    size1 size2 method1 method2 (st1 st2 : state (Frame column))
    shape1 shape2 c1 c2 :
  corr1 (table st1) "pearson" = inr shape1 →
  corr1 (table st1) method1 = inr c1 →
  corr2 (table st2) "pearson" = inr shape2 →
  corr2 (table st2) method2 = inr c2 →
  length <$> shape1 = length <$> shape2 →
  ∃ mask,
    display (fst (plot_correlation_heat_map corr1 title1 cmap1 size1 method1 st1))
    = (display st1 ++ [PltFigure size1; Heatmap c1 mask cmap1 title1])%list
    ∧ display (fst (plot_correlation_heat_map corr2 title2 cmap2 size2 method2 st2))
      = (display st2 ++ [PltFigure size2; Heatmap c2 mask cmap2 title2])%list.
Proof.
  intros Hs1 Hc1 Hs2 Hc2 Hshape.
  exists (triu false (ones_like_bool shape1)). split.
  - unfold plot_correlation_heat_map. run_prefix. rewrite Hs1. run_prefix.
    rewrite Hc1. unfold draw. cbn [fst table stdout display].
    rewrite <- app_assoc. reflexivity.
  - unfold plot_correlation_heat_map. run_prefix. rewrite Hs2. run_prefix.
    rewrite Hc2. unfold draw. cbn [fst table stdout display].
    rewrite <- app_assoc, (mask_of_shape shape1 shape2 Hshape). reflexivity.
Qed.

Lemma heat_map_mask_depends_on_shape_witness :
  ∃ mask,
    display (fst (plot_correlation_heat_map (answer_corr corr_2x2) "Correlation"
                    "BrBG" (25, 25) "pearson" two_columns))
    = (display two_columns
       ++ [PltFigure (25, 25); Heatmap corr_2x2 mask "BrBG" "Correlation"])%list
    ∧ display (fst (plot_correlation_heat_map (answer_corr corr_2x2') "Rank"
                      "viridis" (10, 10) "spearman" two_columns))
      = (display two_columns
         ++ [PltFigure (10, 10); Heatmap corr_2x2' mask "viridis" "Rank"])%list.
Proof.
  apply (heat_map_mask_depends_on_shape (answer_corr corr_2x2)
           (answer_corr corr_2x2') "Correlation" "Rank" "BrBG" "viridis"
           (25, 25) (10, 10) "pearson" "spearman" two_columns two_columns
           corr_2x2 corr_2x2' corr_2x2 corr_2x2'); reflexivity.
Defined.

(** ** A category named like the catch-all *)



Example grouper_label_collision_run :
  create_pie_chart_with_grouped_threshold "category" "Categories"
    F64.lit_0_05 "Others" EmptyString EmptyString 14 90 with_others
  = (State (table with_others) []
       [PiePlot [("Others", 7%nat); ("A", 33%nat)]
                "Categories" EmptyString EmptyString 14 90],
     inr ()).
Proof. vm_compute. reflexivity. Qed.

(** ** At the threshold *)






(** ** More on [plot_acf_pacf] *)


